(** * pseudo_finder: the report parser and the region-merging engine

    A shallow embedding of [pseudo_finder.py] (the alignment-report parser,
    the individual-ORF classifier and the adjacency merge engine) and the
    properties of it that the specification states.

    Conventions of the embedding.
    - Python [int] is [Z]; [len] is a [nat].
    - Python [float] is modelled by the rational it denotes, in canonical
      form ([Qc]): arithmetic is exact.  Rounding error, signed zeros,
      infinities and NaN are outside the model.
    - An [int] that the program compares with [is] / [is not] is kept
      together with the identity of the object that holds it ([pyint]).
    - A Python exception is a value of [exn]; fallible code lives in the
      [result] monad.
    - A text file is the list of its lines. *)

From stdpp Require Import base decidable option list numbers strings gmap sorting.
From Stdlib Require Import Ascii QArith Qcanon Qround Lqa DecimalString DecimalNat.

Close Scope Qc_scope.
Close Scope Q_scope.
Open Scope string_scope.
Open Scope list_scope.

(** ** Exceptions *)

Inductive exn : Type :=
  | IndexError
  | KeyError
  | ValueError
  | ZeroDivisionError.

Inductive result (A : Type) : Type :=
  | Ok (a : A)
  | Raise (e : exn).
Arguments Ok {A} a.
Arguments Raise {A} e.

#[global] Instance result_ret : MRet result := λ A a, Ok a.
#[global] Instance result_bind : MBind result := λ A B f m,
  match m with
  | Ok a => f a
  | Raise e => Raise e
  end.

(** [of_option e o]: a lookup that raises [e] when it finds nothing. *)
Definition of_option {A} (e : exn) (o : option A) : result A :=
  match o with
  | Some a => Ok a
  | None => Raise e
  end.

(** ** Python built-ins used by the program *)

(** [sorted(l, key=...)]: the stable sort.  An element is put in front of
    the first element of the sorted tail whose key is not smaller than its
    own, so elements with equal keys keep their order. *)
Section sorted.
Context {A K : Type} (leb : K → K → bool) (key : A → K).

Fixpoint insert_by (x : A) (l : list A) : list A :=
  match l with
  | [] => [x]
  | y :: l' => if leb (key x) (key y) then x :: y :: l' else y :: insert_by x l'
  end.

Definition sorted (l : list A) : list A := foldr insert_by [] l.
End sorted.

(** [needle in hay] on strings. *)
Fixpoint str_in (needle hay : string) : bool :=
  String.prefix needle hay ||
  match hay with
  | EmptyString => false
  | String _ hay' => str_in needle hay'
  end.

(** An [int] object: its value and the identity of the object.  CPython
    keeps one shared object for every value from -5 to 256, so for those
    the identity is a function of the value. *)
Record pyint : Type := PyInt { int_val : Z; int_obj : positive }.

Definition small_int (z : Z) : bool := (-5 <=? z)%Z && (z <=? 256)%Z.

(** [a is b] on [int] objects. *)
Definition py_is (a b : pyint) : bool :=
  (int_val a =? int_val b)%Z &&
  (small_int (int_val a) || (int_obj a =? int_obj b)%positive).

(** [a is not b]. *)
Definition py_is_not (a b : pyint) : bool := negb (py_is a b).

#[global] Instance pyint_eq_dec : EqDecision pyint.
Proof. solve_decision. Defined.

(** ** Data definitions *)

(** An individual blast hit to a region. *)
Record BlastHit : Type := mkBlastHit {
  accession : string;
  slen : Z;
  s_start : Z;
  s_end : Z;
  eval : Qc
}.

#[global] Instance BlastHit_eq_dec : EqDecision BlastHit.
Proof. solve_decision. Defined.

(** All information about a given region.  The field [end] of the source is
    [end_] here.  [start] is the only field the program compares by
    identity. *)
Record RegionInfo : Type := mkRegionInfo {
  contig : string;
  query : string;
  start : pyint;
  end_ : Z;
  strand : string;
  hits : list BlastHit;
  note : string
}.

#[global] Instance RegionInfo_eq_dec : EqDecision RegionInfo.
Proof. solve_decision. Defined.

(** The value of [r.start]. *)
Definition start_val (r : RegionInfo) : Z := int_val (start r).

(** The counters of [StatisticsDict] (the file names are left out). *)
Record Statistics : Type := mkStatistics {
  NumberOfContigs : nat;
  ProteomeOrfs : nat;
  FragmentedOrfs : nat;
  PseudogenesTotal : nat;
  PseudogenesShort : nat;
  PseudogenesFragmented : nat
}.

Definition StatisticsDict : Statistics := mkStatistics 0 0 0 0 0 0.

(** ** Comparing two regions *)

(** The accessions of a region's hits, as a set. *)
Definition accessions (r : RegionInfo) : gset string :=
  list_to_set (accession <$> hits r).

Definition number_of_matching_hits (r1 r2 : RegionInfo) : nat :=
  size (accessions r1 ∩ accessions r2).

(** [n / d] on two [int]s, for [d] known to be non-zero. *)
Definition true_div (n d : nat) : Qc :=
  (Qc_of_Z (Z.of_nat n) / Qc_of_Z (Z.of_nat d))%Qc.

(** [len(r.hits) is not 0]: 0 is a shared small [int], so the identity test
    is a test on the value. *)
Definition matching_hit_critera (r1 r2 : RegionInfo) (cutoff : Qc) : bool :=
  if negb (length (hits r1) =? 0)%nat && negb (length (hits r2) =? 0)%nat then
    let s := sorted Nat.leb (λ r, length (hits r)) [r1; r2] in
    match s with
    | s0 :: _ =>
        bool_decide (cutoff ≤ true_div (number_of_matching_hits r1 r2) (length (hits s0)))%Qc
    | [] => false
    end
  else false.

Definition region_proximity (r1 r2 : RegionInfo) : Z :=
  let sorted_by_start := sorted Z.leb start_val [r1; r2] in
  match sorted_by_start with
  | first :: second :: _ => start_val second - end_ first
  | _ => 0
  end.

Definition compare_regions (r1 r2 : RegionInfo) (cutoff : Qc) : bool :=
  bool_decide (region_proximity r1 r2 < 1000)%Z
  && matching_hit_critera r1 r2 cutoff
  && bool_decide (strand r1 = strand r2).

(** ** Joining two regions *)

Definition Qc_leb (x y : Qc) : bool := bool_decide (x ≤ y)%Qc.

Definition sort_hits_by_eval (lobh : list BlastHit) : list BlastHit :=
  sorted Qc_leb eval lobh.

Definition fragmentation_note : string :=
  "Note=pseudogene candidate. Reason: Predicted fragmentation of a single gene.;colour=229 204 255".

(** [list_of_set] is [list(set(l))] on hits: the order in which a set is
    iterated depends on the hash values, so it is an argument of the model
    (a permutation of the list without its duplicates). *)
Definition join_regions (list_of_set : list BlastHit → list BlastHit)
    (r1 r2 : RegionInfo) : RegionInfo :=
  let merged_hits := sort_hits_by_eval (list_of_set (hits r1 ++ hits r2)) in
  mkRegionInfo (contig r1) "locus_tag=pseudo_uniqueID" (start r1) (end_ r2)
               (strand r1) merged_hits fragmentation_note.

(** ** The adjacency merge engine *)

(** The variables of [check_adjacent_regions] that the loop changes. *)
Record merge_state : Type := mkMergeState {
  sorted_lori : list RegionInfo;
  MergedList : list RegionInfo;
  IndividualList : list RegionInfo;
  i : nat;
  stats : Statistics
}.

(** [l[n]] on a list. *)
Definition item {A} (l : list A) (n : nat) : result A := of_option IndexError (l !! n).

(** The statistics loop: one more fragmented ORF for every region that this
    program has not annotated as a fragment yet. *)
Definition count_fragmented (regions : list RegionInfo) (sd : Statistics) : Statistics :=
  let n := length (filter
             (λ region, ¬ str_in "Predicted fragmentation of a single gene" (note region))
             regions) in
  mkStatistics (NumberOfContigs sd) (ProteomeOrfs sd) (FragmentedOrfs sd + n)
               (PseudogenesTotal sd) (PseudogenesShort sd) (PseudogenesFragmented sd).

(** [L[:] = [item for item in L if item.start is not pseudo.start]] followed
    by [L.append(pseudo)]. *)
Definition supersede (pseudo : RegionInfo) (L : list RegionInfo) : list RegionInfo :=
  filter (λ item, py_is_not (start item) (start pseudo)) L ++ [pseudo].

(** The end of an iteration in which [NewPseudoMade] is [True]; [rest] is
    the working list after the [del] statements. *)
Definition new_pseudo_made (pseudo : RegionInfo) (rest : list RegionInfo)
    (sd : Statistics) (st : merge_state) : merge_state :=
  mkMergeState (sorted Z.leb start_val (rest ++ [pseudo]))
               (supersede pseudo (MergedList st))
               (IndividualList st)
               (if bool_decide (0 < i st) then i st - 1 else i st)
               sd.

(** The end of an iteration in which [NewPseudoMade] is [False]. *)
Definition move_on (individual : list RegionInfo) (st : merge_state) : merge_state :=
  mkMergeState (sorted_lori st) (MergedList st) individual (i st + 1) (stats st).

Definition is_individual (r : RegionInfo) : bool :=
  str_in "Note=pseudogene candidate. Reason: ORF" (note r).

(** One iteration of the [while] loop.  The [del] statements are stdpp's
    [delete], which is the source's behaviour for an index in range; every
    index is looked up (with [item]) before it is deleted. *)
Definition loop_body (list_of_set : list BlastHit → list BlastHit)
    (cutoff : Qc) (st : merge_state) : result merge_state :=
  let l := sorted_lori st in
  let i := i st in
  r_i ← item l i;
  r_i1 ← item l (i + 1);
  if compare_regions r_i r_i1 cutoff then
    let pseudo := join_regions list_of_set r_i r_i1 in
    let sd := count_fragmented [r_i; r_i1] (stats st) in
    Ok (new_pseudo_made pseudo (delete i (delete (i + 1) l)) sd st)
  else if bool_decide (i < length l - 2) then
    r_i2 ← item l (i + 2);
    if compare_regions r_i r_i2 cutoff then
      let pseudo := join_regions list_of_set r_i r_i2 in
      let sd := count_fragmented [r_i; r_i1; r_i2] (stats st) in
      Ok (new_pseudo_made pseudo (delete i (delete (i + 1) (delete (i + 2) l))) sd st)
    else if is_individual r_i then
      Ok (move_on (supersede r_i (IndividualList st)) st)
    else Ok (move_on (IndividualList st) st)
  else if is_individual r_i then
    Ok (move_on (supersede r_i (IndividualList st)) st)
  else Ok (move_on (IndividualList st) st).

(** [while i < len(sorted_lori)-1], run for at most [fuel] iterations;
    [None] when the fuel does not suffice. *)
Fixpoint while_loop (list_of_set : list BlastHit → list BlastHit)
    (cutoff : Qc) (fuel : nat) (st : merge_state) : option (result merge_state) :=
  if bool_decide (i st < length (sorted_lori st) - 1) then
    match fuel with
    | 0 => None
    | S fuel' =>
        match loop_body list_of_set cutoff st with
        | Ok st' => while_loop list_of_set cutoff fuel' st'
        | Raise e => Some (Raise e)
        end
    end
  else Some (Ok st).

(** The statistics written once the loop has finished. *)
Definition final_statistics (st : merge_state) : Statistics :=
  let sd := stats st in
  let n_ind := length (IndividualList st) in
  let n_mer := length (MergedList st) in
  mkStatistics (NumberOfContigs sd) (ProteomeOrfs sd) (FragmentedOrfs sd)
               (PseudogenesTotal sd + (n_ind + n_mer))
               (PseudogenesShort sd + n_ind)
               (PseudogenesFragmented sd + n_mer).

Definition initial_state (lori : list RegionInfo) (sd : Statistics) : merge_state :=
  mkMergeState (sorted Z.leb start_val lori) [] [] 0 sd.

(** [check_adjacent_regions(lori, contig_number, cutoff)]: the pair
    [(IndividualList, MergedList)] and the statistics after the call ([sd]
    before it).  [contig_number] is only printed and is left out.  Twice the
    length of the list is enough fuel ([while_loop_invariant] below). *)
Definition check_adjacent_regions (list_of_set : list BlastHit → list BlastHit)
    (lori : list RegionInfo) (cutoff : Qc) (sd : Statistics)
    : option (result (list RegionInfo * list RegionInfo * Statistics)) :=
  match while_loop list_of_set cutoff (2 * length lori) (initial_state lori sd) with
  | Some (Ok st) => Some (Ok (IndividualList st, MergedList st, final_statistics st))
  | Some (Raise e) => Some (Raise e)
  | None => None
  end.

(** ** The individual-ORF classifier *)

(** [round(x, 1)], in tenths: the nearest multiple of one tenth, a tie going
    to the even one. *)
Definition round_tenths (x : Qc) : Z :=
  let y := (x * Qc_of_Z 10)%Qc in
  let f := Qfloor y in
  let d := (y - Qc_of_Z f)%Qc in
  if bool_decide (d < Q2Qc (1 # 2))%Qc then f
  else if bool_decide (Q2Qc (1 # 2) < d)%Qc then (f + 1)%Z
  else if Z.even f then f else (f + 1)%Z.

(** The text of a number of tenths, as [%s] prints the [float]: sign, integer
    part, point, one decimal.  ([%s] turns to exponent notation from 1e16
    on; coordinates do not reach that.) *)
Definition tenths_str (negative : bool) (t : Z) : string :=
  (if negative then "-" else "") +:+
  NilZero.string_of_uint (N.to_uint (Z.to_N (Z.abs t / 10))) +:+ "." +:+
  NilZero.string_of_uint (N.to_uint (Z.to_N (Z.abs t mod 10))).

(** ['%s' % round(ratio, 1)]; a negative [ratio] that rounds to zero prints
    as [-0.0]. *)
Definition round_str (ratio : Qc) : string :=
  tenths_str (bool_decide (ratio < 0)%Qc) (round_tenths ratio).

Definition convert_region_to_pseudo (region : RegionInfo) (ratio : Qc) : RegionInfo :=
  mkRegionInfo (contig region) "locus_tag=pseudo_uniqueID" (start region) (end_ region)
               (strand region) (hits region)
               ("Note=pseudogene candidate. Reason: ORF is " +:+ round_str ratio +:+
                "% of the average length of hits to this gene.;colour=229 204 255").

(** [sum(l)] on a list of [int]. *)
Definition sum_list (l : list Z) : Z := foldr Z.add 0%Z l.

(** [sum(ListOfDatabaseLengths) / len(ListOfDatabaseLengths)]. *)
Definition AverageDatabaseLength (region : RegionInfo) : Qc :=
  (Qc_of_Z (sum_list (slen <$> hits region)) / Qc_of_Z (Z.of_nat (length (hits region))))%Qc.

Definition RegionLength (region : RegionInfo) : Z := end_ region - start_val region.

(** [RegionLength / AverageDatabaseLength], where the average is not zero. *)
Definition Ratio (region : RegionInfo) : Qc :=
  (Qc_of_Z (RegionLength region) / AverageDatabaseLength region)%Qc.

(** The second loop of [check_individual_ORFs], over [InitialList].  The
    division by a zero average raises. *)
Fixpoint flag_short (InitialList : list RegionInfo) (length_cutoff : Qc)
    : result (list RegionInfo) :=
  match InitialList with
  | [] => Ok []
  | region :: rest =>
      if bool_decide (AverageDatabaseLength region = 0%Qc) then Raise ZeroDivisionError
      else
        lopg ← flag_short rest length_cutoff;
        if bool_decide (Ratio region < length_cutoff)%Qc
        then Ok (convert_region_to_pseudo region (Ratio region * Qc_of_Z 100)%Qc :: lopg)
        else Ok lopg
  end.

(** [check_individual_ORFs(lori, contig_number, length_cutoff)];
    [contig_number] is only printed and is left out. *)
Definition check_individual_ORFs (lori : list RegionInfo) (length_cutoff : Qc)
    : result (list RegionInfo) :=
  let InitialList := filter (λ region, 2 < length (hits region)) lori in
  flag_short InitialList length_cutoff.

(** ** The report parser *)

(** *** Regular expressions and conversions *)

Definition char_in (c : ascii) (lo hi : nat) : bool :=
  (lo <=? nat_of_ascii c)%nat && (nat_of_ascii c <=? hi)%nat.

(** [\s]: the white space of ASCII. *)
Definition is_space (c : ascii) : bool :=
  char_in c 9 13 || char_in c 28 32.

(** [[0-9]]. *)
Definition is_digit (c : ascii) : bool := char_in c 48 57.

(** One match of ["\s|\[|\]|:|\(|\)"] at [c]; with [hyphen], of
    ["\s|(?<=[0-9])-|\[|\]|:|\(|\)"], where [prev] is the character before
    [c] ([None] at the start of the line). *)
Definition is_separator (hyphen : bool) (prev : option ascii) (c : ascii) : bool :=
  is_space c
  || (hyphen && Ascii.eqb c "-"%char && from_option is_digit false prev)
  || Ascii.eqb c "["%char || Ascii.eqb c "]"%char || Ascii.eqb c ":"%char
  || Ascii.eqb c "("%char || Ascii.eqb c ")"%char.

Definition end_field (tok : string) : list string :=
  if String.eqb tok "" then [] else [tok].

(** The fields after [tok], the field read so far. *)
Fixpoint fields_from (hyphen : bool) (prev : option ascii) (tok : string)
    (s : string) : list string :=
  match s with
  | EmptyString => end_field tok
  | String c s' =>
      if is_separator hyphen prev c
      then end_field tok ++ fields_from hyphen (Some c) "" s'
      else fields_from hyphen (Some c) (tok +:+ String c "") s'
  end.

(** [list(filter(None, re.split(pattern, line)))]: the non-empty pieces
    between the separators. *)
Definition FieldsInLine (hyphen : bool) (line : string) : list string :=
  fields_from hyphen None "" line.

(** [re.match("^" + p, s)] for a pattern [p] without regular-expression
    operators: [p] is a prefix of [s].  Query identifiers are taken to be
    such patterns (letters, digits, underscores). *)
Definition re_match (p s : string) : bool := String.prefix p s.

(** A run of decimal digits, single underscores allowed between digits:
    its value and the number of its digits.  [after]: 0 at the start, 1
    after a digit, 2 after an underscore. *)
Fixpoint digit_run (after : nat) (acc : N) (n : nat) (s : string) : option (N * nat) :=
  match s with
  | EmptyString => if (after =? 1)%nat then Some (acc, n) else None
  | String c s' =>
      if is_digit c
      then digit_run 1 (acc * 10 + N.of_nat (nat_of_ascii c - 48)) (S n) s'
      else if Ascii.eqb c "_"%char && (after =? 1)%nat then digit_run 2 acc n s'
      else None
  end.

(** An optional sign. *)
Definition split_sign (s : string) : bool * string :=
  match s with
  | String "-"%char s' => (true, s')
  | String "+"%char s' => (false, s')
  | _ => (false, s)
  end.

Definition signed (negative : bool) (n : N) : Z :=
  if negative then (- Z.of_N n)%Z else Z.of_N n.

(** [int(s)] on a field (a field holds no white space). *)
Definition py_int (s : string) : result Z :=
  let '(negative, body) := split_sign s in
  match digit_run 0 0 0 body with
  | Some (n, _) => Ok (signed negative n)
  | None => Raise ValueError
  end.

(** [s] up to the first character that [p] holds of, and what follows that
    character. *)
Fixpoint split_at (p : ascii → bool) (s : string) : string * option string :=
  match s with
  | EmptyString => ("", None)
  | String c s' =>
      if p c then ("", Some s')
      else let '(a, b) := split_at p s' in (String c a, b)
  end.

(** A possibly empty run of digits. *)
Definition digit_run_opt (s : string) : option (N * nat) :=
  if String.eqb s "" then Some (0%N, 0) else digit_run 0 0 0 s.

(** [10 ** e] as a rational. *)
Definition pow10 (e : Z) : Qc :=
  match e with
  | Zneg p => (/ Qc_of_Z (10 ^ Zpos p))%Qc
  | _ => Qc_of_Z (10 ^ e)
  end.

(** [float(s)] on a field: sign, digits with an optional point, optional
    exponent; the value is exact.  The literals [inf], [infinity] and [nan]
    have no rational value and are outside the model. *)
Definition py_float (s : string) : result Qc :=
  let '(negative, body) := split_sign s in
  let '(mantissa, exponent) := split_at (λ c, Ascii.eqb c "e"%char || Ascii.eqb c "E"%char) body in
  let '(int_part, frac_part) := split_at (λ c, Ascii.eqb c "."%char) mantissa in
  let frac := default "" frac_part in
  let e := match exponent with
           | None => Some 0%Z
           | Some ex =>
               let '(eneg, ebody) := split_sign ex in
               (λ '(n, _), signed eneg n) <$> digit_run 0 0 0 ebody
           end in
  match digit_run_opt int_part, digit_run_opt frac, e with
  | Some (ip, ni), Some (fp, nf), Some e =>
      if (ni + nf =? 0)%nat then Raise ValueError
      else
        let m := (Z.of_N ip * 10 ^ Z.of_nat nf + Z.of_N fp)%Z in
        Ok (Qc_of_Z (if negative then - m else m) * pow10 (e - Z.of_nat nf))%Qc
  | _, _, _ => Raise ValueError
  end.

(** [l[z]] for an [int] index: a negative index counts from the end. *)
Definition item_Z {A} (l : list A) (z : Z) : result A :=
  if bool_decide (0 ≤ z)%Z then item l (Z.to_nat z)
  else if bool_decide (0 ≤ Z.of_nat (length l) + z)%Z
       then item l (Z.to_nat (Z.of_nat (length l) + z))
       else Raise IndexError.

(** *** The dictionary of queries *)

(** A value of [QueryDict]: a dictionary with the keys [contig], [query],
    [start], [end], [strand] and, once a hit is read, [hits]. *)
Record query_info : Type := mkQueryInfo {
  qi_contig : string;
  qi_query : string;
  qi_start : pyint;
  qi_end : Z;
  qi_strand : string;
  qi_hits : option (list BlastHit)
}.

(** A [dict] keeps its keys in the order of their first insertion. *)
Definition dict : Type := list (string * query_info).

Definition dict_get (k : string) (d : dict) : option query_info :=
  snd <$> List.find (λ kv, String.eqb (fst kv) k) d.

(** [d[k] = v]. *)
Fixpoint dict_set (k : string) (v : query_info) (d : dict) : dict :=
  match d with
  | [] => [(k, v)]
  | (k', v') :: d' =>
      if String.eqb k' k then (k, v) :: d' else (k', v') :: dict_set k v d'
  end.

(** [del d[k]]. *)
Fixpoint dict_del (k : string) (d : dict) : result dict :=
  match d with
  | [] => Raise KeyError
  | (k', v') :: d' =>
      if String.eqb k' k then Ok d' else d'' ← dict_del k d'; Ok ((k', v') :: d'')
  end.

(** *** Reading the report *)

Fixpoint collect_query_ids (lines : list string) : result (list string) :=
  match lines with
  | [] => Ok []
  | line :: rest =>
      if re_match "# Query:" line then
        query ← item (FieldsInLine false line) 2;
        loq ← collect_query_ids rest;
        Ok (query :: loq)
      else collect_query_ids rest
  end.

(** The variables of [parse_blast] that the loop over the lines changes;
    [next_obj] names the next [int] object to be made. *)
Record parse_state : Type := mkParseState {
  queryIndex : nat;
  QueryDict : dict;
  next_obj : positive
}.

(** The branches of the [if] ... [elif] chain on one line. *)
Definition parse_branches (queries : list string) (line : string) (st : parse_state)
    : result parse_state :=
  q ← item queries (queryIndex st);
  if re_match ("# Query: " +:+ q) line then
    let F := FieldsInLine true line in
    c ← item F 3;
    s ← item F 4 ≫= py_int;
    e ← item F 5 ≫= py_int;
    sd ← item F 6;
    let info := mkQueryInfo c q (PyInt s (next_obj st)) e sd None in
    Ok (mkParseState (queryIndex st) (dict_set q info (QueryDict st)) (Pos.succ (next_obj st)))
  else if re_match "# 0 hits found" line then
    d ← dict_del q (QueryDict st);
    Ok (mkParseState (queryIndex st + 1) d (next_obj st))
  else if re_match q line then
    let F := FieldsInLine false line in
    info ← of_option KeyError (dict_get q (QueryDict st));
    let hits_so_far := default [] (qi_hits info) in
    a ← item F 1;
    sl ← item F 10 ≫= py_int;
    ss ← item F 8 ≫= py_int;
    se ← item F 9 ≫= py_int;
    ev ← item F 11 ≫= py_float;
    let hit := mkBlastHit a (sl * 3) ss se ev in
    let info' := mkQueryInfo (qi_contig info) (qi_query info) (qi_start info) (qi_end info)
                             (qi_strand info) (Some (hits_so_far ++ [hit])) in
    Ok (mkParseState (queryIndex st) (dict_set q info' (QueryDict st)) (next_obj st))
  else Ok st.

(** The [try] block that ends the loop body: a line that starts with [#]
    and follows a hit of the current query moves on to the next query; an
    [IndexError] is passed over. *)
Definition end_of_hits (queries lines : list string) (line_number : nat) (line : string)
    (st : parse_state) : parse_state :=
  if re_match "#" line then
    match item queries (queryIndex st), item_Z lines (Z.of_nat line_number - 1) with
    | Ok q, Ok previous =>
        if re_match q previous
        then mkParseState (queryIndex st + 1) (QueryDict st) (next_obj st)
        else st
    | _, _ => st
    end
  else st.

(** The body of [for line_number, line in enumerate(lines)]. *)
Definition parse_line (queries lines : list string) (line_number : nat) (line : string)
    (st : parse_state) : result parse_state :=
  st' ← parse_branches queries line st;
  Ok (end_of_hits queries lines line_number line st').

(** The loop from line [line_number] on, [todo] being the lines left. *)
Fixpoint parse_lines (queries lines : list string) (line_number : nat) (todo : list string)
    (st : parse_state) : result parse_state :=
  match todo with
  | [] => Ok st
  | line :: rest =>
      st' ← parse_line queries lines line_number line st;
      parse_lines queries lines (S line_number) rest st'
  end.

(** [min(l)] and [max(l)] on a list of [int]; they raise on an empty list. *)
Definition py_min (l : list Z) : result Z :=
  match l with
  | [] => Raise ValueError
  | x :: l' => Ok (foldl Z.min x l')
  end.

Definition py_max (l : list Z) : result Z :=
  match l with
  | [] => Raise ValueError
  | x :: l' => Ok (foldl Z.max x l')
  end.

Definition get_intergenic_query_range (lobh : list BlastHit) (start_position : Z)
    : result (Z * Z) :=
  lo ← py_min (s_start <$> lobh);
  hi ← py_max (s_end <$> lobh);
  Ok (start_position + lo + 1, start_position + hi + 1)%Z.

(** The loop [for key in QueryDict] that builds [regionList].  The tests
    [blast_format is "BlastP"] compare two occurrences of one string
    constant of the module, which are one object: [is] is equality there. *)
Fixpoint region_list (blast_format : string) (d : dict) (next : positive)
    : result (list RegionInfo) :=
  match d with
  | [] => Ok []
  | (key, info) :: d' =>
      p ← (if String.eqb blast_format "BlastP" then
             h ← of_option KeyError (qi_hits info);
             Ok [mkRegionInfo (qi_contig info) (qi_query info) (qi_start info) (qi_end info)
                              (qi_strand info) h ""]
           else Ok []);
      x ← (if String.eqb blast_format "BlastX" then
             h ← of_option KeyError (qi_hits info);
             '(regionStart, regionEnd) ← get_intergenic_query_range h (int_val (qi_start info));
             Ok [mkRegionInfo (qi_contig info) (qi_query info) (PyInt regionStart next) regionEnd
                              (qi_strand info) h ""]
           else Ok []);
      rest ← region_list blast_format d' (Pos.succ next);
      Ok (p ++ x ++ rest)
  end.

(** [parse_blast(filename, blast_format)], [lines] being the lines of the
    file.  (The count of queries that it writes to [StatisticsDict] is left
    out.) *)
Definition parse_blast (lines : list string) (blast_format : string)
    : result (list RegionInfo) :=
  queries ← collect_query_ids lines;
  st ← parse_lines queries lines 0 lines (mkParseState 0 [] 1);
  region_list blast_format (QueryDict st) (next_obj st).

(** ** Contigs, replacement of flagged genes and locus tags *)

(** A collection of regions on the same contig. *)
Record Contig : Type := mkContig {
  regions : list RegionInfo;
  name : string
}.

(** [names_of_set] is [list(set(l))] on contig names; as for the hits, the
    order in which the set is iterated is an argument of the model. *)
Definition split_regions_into_contigs (names_of_set : list string → list string)
    (lori : list RegionInfo) : list Contig :=
  let contig_names := names_of_set (contig <$> lori) in
  (λ contig_name,
     let regions_on_contig := filter (λ ri, contig ri = contig_name) lori in
     mkContig regions_on_contig contig_name) <$> contig_names.

(** [sorted(loc, key=lambda c: c.name)]: strings are compared character by
    character, by character code. *)
Definition sort_contigs (loc : list Contig) : list Contig :=
  sorted String.leb name loc.

(** The loop of [pseudo_present]: the first pseudogene that starts where the
    gene starts ([==], a comparison of values). *)
Fixpoint pseudo_present (gene : RegionInfo) (pseudos : list RegionInfo)
    : bool * RegionInfo :=
  match pseudos with
  | [] => (false, gene)
  | pseudo :: rest =>
      if bool_decide (start_val pseudo = start_val gene) then (true, pseudo)
      else pseudo_present gene rest
  end.

Definition replace_pseudos_in_list (pseudos genes : list RegionInfo) : list RegionInfo :=
  (λ gene,
     if (pseudo_present gene pseudos).1 then (pseudo_present gene pseudos).2 else gene)
  <$> genes.

(** [count] characters [0]. *)
Fixpoint zeros (count : nat) : string :=
  match count with
  | 0 => ""
  | S count' => String "0" (zeros count')
  end.

(** ['%04d' % n] for a number that is not negative: its decimal digits,
    filled up with zeros on the left to four characters. *)
Definition format_04d (n : nat) : string :=
  let digits := NilZero.string_of_uint (Nat.to_uint n) in
  zeros (4 - String.length digits) +:+ digits.

Definition add_locus_tags (lori : list RegionInfo) (contig_name : string)
    : list RegionInfo :=
  let sorted_by_start := sorted Z.leb start_val lori in
  imap (λ counter region,
          mkRegionInfo (contig region) (query region) (start region) (end_ region)
                       (strand region) (hits region)
                       (note region +:+ ";locus_tag=" +:+ contig_name +:+ "_" +:+
                        format_04d (counter + 1)))
       sorted_by_start.

(** [annotate_pseudos(contig, contig_number, hits_cutoff, length_cutoff)]
    and the statistics after the call; [contig_number] is only printed. *)
Definition annotate_pseudos (list_of_set : list BlastHit → list BlastHit)
    (contig : Contig) (hits_cutoff length_cutoff : Qc) (sd : Statistics)
    : option (result (list RegionInfo * Statistics)) :=
  match check_individual_ORFs (regions contig) length_cutoff with
  | Raise e => Some (Raise e)
  | Ok IndividualPseudos =>
      let UpdatedList := replace_pseudos_in_list IndividualPseudos (regions contig) in
      match check_adjacent_regions list_of_set UpdatedList hits_cutoff sd with
      | Some (Ok (individual, merged, sd')) =>
          Some (Ok (add_locus_tags (individual ++ merged) (name contig), sd'))
      | Some (Raise e) => Some (Raise e)
      | None => None
      end
  end.

(** ** The statements of the specification, in its own words *)

(** The gap between the earlier region's end and the later region's start,
    the pair being ordered by start. *)
Definition gap (r1 r2 : RegionInfo) : Z :=
  if bool_decide (start_val r1 ≤ start_val r2)%Z
  then start_val r2 - end_ r1
  else start_val r1 - end_ r2.

(** [|accessions(r1) ∩ accessions(r2)| / min(|hits(r1)|, |hits(r2)|)]. *)
Definition shared_hit_fraction (r1 r2 : RegionInfo) : Qc :=
  (Qc_of_Z (Z.of_nat (size (accessions r1 ∩ accessions r2)))
   / Qc_of_Z (Z.of_nat (length (hits r1) `min` length (hits r2))))%Qc.

(** Two regions are mergeable. *)
Definition mergeable (r1 r2 : RegionInfo) (h : Qc) : Prop :=
  (gap r1 r2 < 1000)%Z ∧
  strand r1 = strand r2 ∧
  (0 < length (hits r1) ∧ 0 < length (hits r2) ∧ (h ≤ shared_hit_fraction r1 r2)%Qc).

(** ** Measures used in the proofs *)

(** The regions of a list that this program has not annotated as a fragment:
    those that the statistics loop counts. *)
Definition unannotated (l : list RegionInfo) : nat :=
  length (filter (λ region, ¬ str_in "Predicted fragmentation of a single gene" (note region)) l).

(** The regions of a list that start at [m] or after it. *)
Definition count_from (m : Z) (l : list RegionInfo) : nat :=
  length (filter (λ region, (m ≤ start_val region)%Z) l).


(** The hit [h] was read from a row of the report: its accession is the
    second field of the row and its target length is three times the number
    in the eleventh field, [slen]. *)
Definition scaled_hit (lines : list string) (h : BlastHit) : Prop :=
  ∃ line n,
    line ∈ lines ∧
    item (FieldsInLine false line) 1 = Ok (accession h) ∧
    item (FieldsInLine false line) 10 ≫= py_int = Ok n ∧
    slen h = (n * 3)%Z.

(** Every hit kept in the dictionary was read from a row of the report. *)
Definition dict_scaled (lines : list string) (d : dict) : Prop :=
  ∀ k info l, (k, info) ∈ d → qi_hits info = Some l → Forall (scaled_hit lines) l.

(** ** Sample inputs *)

Definition newline : string := String (ascii_of_nat 10) "".

(** The lines of a file, each with its end of line, as [readlines] gives
    them. *)
Definition readlines (rows : list string) : list string := (λ row, row +:+ newline) <$> rows.

(** A hit of the sample regions. *)
Definition sample_hit (a : string) (e : Q) : BlastHit := mkBlastHit a 300 1 100 (Q2Qc e).

(** Four regions of one contig; [region_A] and [region_B] start at the same
    coordinate, read from two lines of a report (two [int] objects). *)
Definition region_A : RegionInfo :=
  mkRegionInfo "c1" "A" (PyInt 500 1) 560 "+" [sample_hit "x" (1 # 1000)] "".
Definition region_B : RegionInfo :=
  mkRegionInfo "c1" "B" (PyInt 500 2) 590 "-" [sample_hit "y" (1 # 1000)] "".
Definition region_C : RegionInfo :=
  mkRegionInfo "c1" "C" (PyInt 600 3) 690 "-" [sample_hit "y" (1 # 1000); sample_hit "z" (1 # 100)] "".
Definition region_D : RegionInfo :=
  mkRegionInfo "c1" "D" (PyInt 700 4) 790 "+" [sample_hit "x" (1 # 1000)] "".

Definition short_note : string :=
  "Note=pseudogene candidate. Reason: ORF is 50.0% of the average length of hits to this gene.;colour=229 204 255".

(** Two regions that start at the same coordinate and are already flagged
    as individual pseudogenes. *)
Definition region_S1 : RegionInfo :=
  mkRegionInfo "c1" "S1" (PyInt 500 1) 560 "+" [sample_hit "x" (1 # 1000)] short_note.
Definition region_S2 : RegionInfo :=
  mkRegionInfo "c1" "S2" (PyInt 500 2) 590 "-" [sample_hit "w" (1 # 1000)] short_note.

(** A region without hits. *)
Definition region_empty : RegionInfo :=
  mkRegionInfo "c1" "N" (PyInt 800 6) 890 "+" [] "".

(** The default cutoff of shared hits, 0.30, and of length, 0.60. *)
Definition shared_hits_default : Qc := Q2Qc (3 # 10).
Definition length_pseudo_default : Qc := Q2Qc (6 # 10).

(** A region of length 150 with five hits of target length 300. *)
Definition region_short : RegionInfo :=
  mkRegionInfo "c1" "E" (PyInt 1000 5) 1150 "+"
    [sample_hit "a" (1 # 10); sample_hit "b" (1 # 10); sample_hit "c" (1 # 10);
     sample_hit "d" (1 # 10); sample_hit "e" (1 # 10)] "".

(** A report whose second header line names [Q2] while [Q1] is expected. *)
Definition report_mismatch : list string := readlines
  ["# Query: Q1 c1 [1:100](+)";
   "# Query: Q2 c1 [200:300](+)";
   "Q1 acc1 47.929 169 81 5 61 225 25 190 192 1.33e-40 140";
   "Q2 acc2 32.632 95 45 3 41 125 3 88 91 8.85e-05 43.5"].

(** A report that ends with a hit of its first query. *)
Definition report_no_trailer : list string := readlines
  ["# BLASTP 2.6.0+";
   "# Query: Q1 c1 [115:223](+)";
   "Q1 acc1 47.929 169 81 5 61 225 25 190 192 1.33e-40 140"].

(** A report of a protein search (not translated) with one hit, whose
    [slen] field is 192. *)
Definition report_blastp : list string := readlines
  ["# BLASTP 2.6.0+";
   "# Query: Q1 c1 [115:223](+)";
   "# Database: db";
   "# 1 hits found";
   "Q1 acc1 47.929 169 81 5 61 225 25 190 192 1.33e-40 140";
   "# BLAST processed 1 queries"].

(** What [parse_blast] makes of [report_blastp]. *)
Definition blastp_hit : BlastHit :=
  mkBlastHit "acc1" 576 25 190
    (match py_float "1.33e-40" with Ok e => e | Raise _ => 0%Qc end).
Definition blastp_region : RegionInfo :=
  mkRegionInfo "c1" "Q1" (PyInt 115 1) 223 "+" [blastp_hit] "".

(** A report that ends after the header of its query [Q1], without a line
    of hits and without the line [# 0 hits found]. *)
Definition report_truncated : list string := readlines
  ["# BLASTP 2.6.0+";
   "# Query: Q1 c1 [115:223](+)";
   "# Database: db"].

(** Three regions whose start coordinates differ. *)
Definition regions_apart : list RegionInfo := [region_B; region_C; region_D].

(** Equal start coordinates are held by one object: on the start
    coordinates of [lori], [is] is equality of values. *)
Definition starts_identified (lori : list RegionInfo) : Prop :=
  ∀ r r', r ∈ lori → r' ∈ lori → start_val r = start_val r' →
          py_is (start r) (start r') = true.

(** The region [r] spans from the start of a region of [lori], whose contig
    and strand it has, to the end of a region of [lori], and each of its
    hits is a hit of a region of [lori]. *)
Definition spans (lori : list RegionInfo) (r : RegionInfo) : Prop :=
  (∃ r1 r2, r1 ∈ lori ∧ r2 ∈ lori ∧
            start r = start r1 ∧ contig r = contig r1 ∧ strand r = strand r1 ∧
            end_ r = end_ r2) ∧
  (∀ h, h ∈ hits r → ∃ r0, r0 ∈ lori ∧ h ∈ hits r0).


(** The number that a string of decimal digits denotes. *)
Definition decimal_value (s : string) : option nat :=
  Nat.of_uint <$> NilEmpty.uint_of_string s.

(** What the dictionary of queries holds while a report is read: one entry
    for a key, under the identifier that the entry records, which is one of
    the query identifiers; a list of hits, where there is one, is not
    empty. *)
Definition dict_wf (queries : list string) (d : dict) : Prop :=
  NoDup d.*1 ∧
  ∀ k info, (k, info) ∈ d →
            qi_query info = k ∧ k ∈ queries ∧ ∀ l, qi_hits info = Some l → l ≠ [].

(** The region [r'] of a translated report beside the region [r] that the
    same lines give as a protein report: the same but for the coordinates,
    which are taken from the hits. *)
Definition recomputed (r r' : RegionInfo) : Prop :=
  contig r' = contig r ∧ query r' = query r ∧ strand r' = strand r ∧
  hits r' = hits r ∧ note r' = note r ∧
  get_intergenic_query_range (hits r) (start_val r) = Ok (start_val r', end_ r').

(** * Properties *)

(** ** Facts about [sorted] *)

Section sorted_facts.
Context {A K : Type} (leb : K → K → bool) (key : A → K).

Lemma insert_by_Permutation x l : insert_by leb key x l ≡ₚ x :: l.
Proof.
  induction l as [|y l IH]; simpl; [done|].
  destruct (leb (key x) (key y)); [done|].
  rewrite IH. apply Permutation_swap.
Qed.

Lemma sorted_Permutation l : sorted leb key l ≡ₚ l.
Proof.
  induction l as [|x l IH]; simpl; [done|].
  by rewrite insert_by_Permutation, IH.
Qed.

Lemma sorted_length l : length (sorted leb key l) = length l.
Proof. by rewrite sorted_Permutation. Qed.

Lemma sorted_pair x y :
  sorted leb key [x; y] = if leb (key x) (key y) then [x; y] else [y; x].
Proof. reflexivity. Qed.

Hypothesis leb_total : ∀ x y, leb x y = false → leb y x = true.
Hypothesis leb_trans : ∀ x y z, leb x y = true → leb y z = true → leb x z = true.

Lemma insert_by_sorted x l :
  StronglySorted (λ a b, leb (key a) (key b) = true) l →
  StronglySorted (λ a b, leb (key a) (key b) = true) (insert_by leb key x l).
Proof.
  induction 1 as [|y l Hl IH Hy]; simpl.
  - repeat constructor.
  - destruct (leb (key x) (key y)) eqn:Hxy.
    + constructor; [by constructor|].
      constructor; [done|].
      eapply Forall_impl; [exact Hy|]. intros z Hz. simpl in Hz. eauto.
    + constructor; [done|].
      rewrite insert_by_Permutation. constructor; [auto|done].
Qed.

Lemma sorted_StronglySorted l :
  StronglySorted (λ a b, leb (key a) (key b) = true) (sorted leb key l).
Proof.
  induction l as [|x l IH]; simpl; [constructor|]. by apply insert_by_sorted.
Qed.
End sorted_facts.

Lemma Z_leb_total x y : (x <=? y)%Z = false → (y <=? x)%Z = true.
Proof. lia. Qed.

Lemma Z_leb_trans x y z : (x <=? y)%Z = true → (y <=? z)%Z = true → (x <=? z)%Z = true.
Proof. lia. Qed.

Lemma Qc_leb_total x y : Qc_leb x y = false → Qc_leb y x = true.
Proof.
  unfold Qc_leb. intros H%bool_decide_eq_false. apply bool_decide_eq_true.
  by apply Qclt_le_weak, Qcnot_le_lt.
Qed.

Lemma Qc_leb_trans x y z : Qc_leb x y = true → Qc_leb y z = true → Qc_leb x z = true.
Proof.
  unfold Qc_leb. intros H1%bool_decide_eq_true H2%bool_decide_eq_true.
  apply bool_decide_eq_true. by eapply Qcle_trans.
Qed.

(** ** The shared-hit criterion and the comparison of two regions *)

Lemma number_of_matching_hits_comm r1 r2 :
  number_of_matching_hits r1 r2 = number_of_matching_hits r2 r1.
Proof. unfold number_of_matching_hits. f_equal. apply (comm_L (∩)). Qed.

(** The region with the fewest hits has [min] of the two counts. *)
Lemma fewest_hits r1 r2 :
  ∃ s0 s1, sorted Nat.leb (λ r, length (hits r)) [r1; r2] = [s0; s1] ∧
           length (hits s0) = length (hits r1) `min` length (hits r2).
Proof.
  rewrite sorted_pair.
  destruct (Nat.leb_spec (length (hits r1)) (length (hits r2)));
    eexists _, _; (split; [reflexivity|]); lia.
Qed.

Lemma matching_hit_critera_spec r1 r2 cutoff :
  matching_hit_critera r1 r2 cutoff = true ↔
  0 < length (hits r1) ∧ 0 < length (hits r2) ∧ (cutoff ≤ shared_hit_fraction r1 r2)%Qc.
Proof.
  unfold matching_hit_critera, shared_hit_fraction, true_div, number_of_matching_hits.
  destruct (fewest_hits r1 r2) as (s0 & s1 & -> & ->).
  destruct (length (hits r1)) as [|n1], (length (hits r2)) as [|n2]; simpl negb; simpl andb;
    cbv iota; rewrite ?bool_decide_eq_true; try (split; [done | lia]).
  split; [intros H; repeat split; [lia | lia | done] | by intros (_ & _ & H)].
Qed.

Lemma region_proximity_gap r1 r2 : region_proximity r1 r2 = gap r1 r2.
Proof.
  unfold region_proximity, gap. rewrite sorted_pair.
  case_bool_decide as H.
  - apply Z.leb_le in H. by rewrite H.
  - apply Z.leb_nle in H. by rewrite H.
Qed.

(** C9.  The shared-hit criterion is symmetric in the two regions:
    [matching_hit_critera r1 r2 h] and [matching_hit_critera r2 r1 h] are
    the same boolean, for every pair of regions and every cutoff. *)
Theorem matching_hit_critera_symmetric r1 r2 (h : Qc) :
  matching_hit_critera r1 r2 h = matching_hit_critera r2 r1 h.
Proof.
  apply eq_true_iff_eq. rewrite !matching_hit_critera_spec.
  unfold shared_hit_fraction.
  rewrite (comm_L (∩) (accessions r2)), (Nat.min_comm (length (hits r2))).
  tauto.
Qed.

(** C1.  [compare_regions r1 r2 h] is [True] exactly when the three
    conditions of the specification hold together: the gap between the
    earlier region's end and the later region's start is below 1000 (a
    negative gap included), the strands are equal, and both regions have a
    hit and share at least the fraction [h] of the hits of the region with
    fewer hits.  In particular a region without hits is mergeable with no
    region. *)
Theorem compare_regions_iff_mergeable r1 r2 (h : Qc) :
  (compare_regions r1 r2 h = true ↔ mergeable r1 r2 h) ∧
  (hits r1 = [] ∨ hits r2 = [] → compare_regions r1 r2 h = false).
Proof.
  assert (compare_regions r1 r2 h = true ↔ mergeable r1 r2 h) as Hiff.
  { unfold compare_regions, mergeable.
    rewrite !andb_true_iff, !bool_decide_eq_true, region_proximity_gap,
      matching_hit_critera_spec. tauto. }
  split; [exact Hiff|].
  intros Hnil. apply not_true_is_false. rewrite Hiff.
  intros (_ & _ & H1 & H2 & _). destruct Hnil as [Hn|Hn]; rewrite Hn in *; simpl in *; lia.
Qed.

(** ** Joining two regions *)

Lemma StronglySorted_mono {A} (R R' : A → A → Prop) l :
  (∀ a b, R a b → R' a b) → StronglySorted R l → StronglySorted R' l.
Proof.
  intros HR. induction 1 as [|x l Hl IH Hx]; constructor; [done|].
  eapply Forall_impl; [exact Hx|]. auto.
Qed.

Lemma sort_hits_by_eval_sorted lobh :
  StronglySorted (λ a b, (eval a ≤ eval b)%Qc) (sort_hits_by_eval lobh).
Proof.
  eapply StronglySorted_mono;
    [|apply (sorted_StronglySorted Qc_leb eval Qc_leb_total Qc_leb_trans)].
  intros a b H. by apply bool_decide_eq_true in H.
Qed.

Section join_regions_facts.
Variable list_of_set : list BlastHit → list BlastHit.
Hypothesis list_of_set_perm : ∀ l, list_of_set l ≡ₚ remove_dups l.

Lemma merged_hits_Permutation l :
  sort_hits_by_eval (list_of_set l) ≡ₚ remove_dups l.
Proof. unfold sort_hits_by_eval. by rewrite sorted_Permutation. Qed.

(** C2.  The region that [join_regions r1 r2] returns starts where [r1]
    starts and ends where [r2] ends, has the strand and the contig of
    [r1], the placeholder [locus_tag=pseudo_uniqueID] as its query and a
    note that marks it as a fragmentation candidate; its hits are those of
    [r1] and of [r2], each once, in ascending order of e-value. *)
Theorem join_regions_fields r1 r2 :
  let r := join_regions list_of_set r1 r2 in
  start r = start r1 ∧
  end_ r = end_ r2 ∧
  strand r = strand r1 ∧
  contig r = contig r1 ∧
  query r = "locus_tag=pseudo_uniqueID" ∧
  note r = "Note=pseudogene candidate. Reason: Predicted fragmentation of a single gene.;colour=229 204 255" ∧
  NoDup (hits r) ∧
  (∀ h, h ∈ hits r ↔ h ∈ hits r1 ∨ h ∈ hits r2) ∧
  StronglySorted (λ a b, (eval a ≤ eval b)%Qc) (hits r).
Proof.
  simpl. repeat (split; [reflexivity|]).
  split; [|split].
  - rewrite merged_hits_Permutation. apply NoDup_remove_dups.
  - intros h. rewrite merged_hits_Permutation, elem_of_remove_dups. apply elem_of_app.
  - apply sort_hits_by_eval_sorted.
Qed.
End join_regions_facts.

(** ** The adjacency merge engine *)

Lemma item_Some {A} (l : list A) n x : l !! n = Some x → item l n = Ok x.
Proof. unfold item. by intros ->. Qed.

(** Two positions taken out of a list. *)
Lemma delete_two {A} (l : list A) n a b :
  l !! n = Some a → l !! (n + 1) = Some b →
  l ≡ₚ a :: b :: delete n (delete (n + 1) l).
Proof.
  intros Ha Hb.
  rewrite (delete_Permutation l (n + 1) b) at 1 by done.
  rewrite (delete_Permutation (delete (n + 1) l) n a) at 1
    by (rewrite list_lookup_delete_lt by lia; done).
  apply Permutation_swap.
Qed.

(** Three positions taken out of a list. *)
Lemma delete_three {A} (l : list A) n a b c :
  l !! n = Some a → l !! (n + 1) = Some b → l !! (n + 2) = Some c →
  l ≡ₚ a :: b :: c :: delete n (delete (n + 1) (delete (n + 2) l)).
Proof.
  intros Ha Hb Hc.
  rewrite (delete_Permutation l (n + 2) c) at 1 by done.
  rewrite (delete_two (delete (n + 2) l) n a b) at 1
    by (rewrite list_lookup_delete_lt by lia; done).
  etrans; [apply Permutation_swap|]. apply Permutation_skip, Permutation_swap.
Qed.

Section merge_engine_facts.
Variable list_of_set : list BlastHit → list BlastHit.
Variable cutoff : Qc.

(** The four ways an iteration can go: a fuse of two neighbours, a fuse
    across one region, a standalone record, or nothing.  None raises. *)
Lemma loop_body_cases st :
  i st < length (sorted_lori st) - 1 →
  ∃ r_i r_i1,
    sorted_lori st !! i st = Some r_i ∧
    sorted_lori st !! (i st + 1) = Some r_i1 ∧
    (loop_body list_of_set cutoff st =
       Ok (new_pseudo_made (join_regions list_of_set r_i r_i1)
             (delete (i st) (delete (i st + 1) (sorted_lori st)))
             (count_fragmented [r_i; r_i1] (stats st)) st)
     ∨ (∃ r_i2,
          sorted_lori st !! (i st + 2) = Some r_i2 ∧
          loop_body list_of_set cutoff st =
            Ok (new_pseudo_made (join_regions list_of_set r_i r_i2)
                  (delete (i st) (delete (i st + 1) (delete (i st + 2) (sorted_lori st))))
                  (count_fragmented [r_i; r_i1; r_i2] (stats st)) st))
     ∨ loop_body list_of_set cutoff st =
         Ok (move_on (supersede r_i (IndividualList st)) st)
     ∨ loop_body list_of_set cutoff st = Ok (move_on (IndividualList st) st)).
Proof.
  intros Hguard.
  destruct (lookup_lt_is_Some_2 (sorted_lori st) (i st)) as [r_i Hi]; [lia|].
  destruct (lookup_lt_is_Some_2 (sorted_lori st) (i st + 1)) as [r_i1 Hi1]; [lia|].
  exists r_i, r_i1. split; [done|]. split; [done|].
  unfold loop_body. rewrite (item_Some _ _ _ Hi), (item_Some _ _ _ Hi1). simpl.
  destruct (compare_regions r_i r_i1 cutoff); [by left|].
  case_bool_decide as Hlong.
  - destruct (lookup_lt_is_Some_2 (sorted_lori st) (i st + 2)) as [r_i2 Hi2]; [lia|].
    rewrite (item_Some _ _ _ Hi2). simpl.
    destruct (compare_regions r_i r_i2 cutoff); [right; left; eauto|].
    destruct (is_individual r_i); tauto.
  - destruct (is_individual r_i); tauto.
Qed.

(** Every iteration pushes the measure [2 * len(sorted_lori) - i] down:
    a fuse shortens the working list and rewinds the index by at most one,
    any other iteration keeps the list and advances the index by one. *)
Lemma loop_body_progress st st' :
  i st < length (sorted_lori st) - 1 →
  loop_body list_of_set cutoff st = Ok st' →
  (length (sorted_lori st') < length (sorted_lori st) ∧ (i st - 1 ≤ i st')%nat ∧ (i st' ≤ i st)%nat)
  ∨ (sorted_lori st' = sorted_lori st ∧ i st' = i st + 1).
Proof.
  intros Hguard Hbody.
  destruct (loop_body_cases st Hguard)
    as (r_i & r_i1 & Hi & Hi1 & [H|[(r_i2 & Hi2 & H)|[H|H]]]);
    rewrite H in Hbody; injection Hbody as <-; simpl.
  - left. rewrite sorted_length, length_app, !length_delete; simpl.
    + case_bool_decide; lia.
    + done.
    + rewrite list_lookup_delete_lt by lia. done.
  - left. rewrite sorted_length, length_app, !length_delete; simpl.
    + case_bool_decide; lia.
    + done.
    + rewrite list_lookup_delete_lt by lia. done.
    + rewrite !list_lookup_delete_lt by lia. done.
  - by right.
  - by right.
Qed.

(** An invariant of the loop body holds when the loop is left, and the
    loop is left: the fuel [2 * len(sorted_lori) - i] is enough. *)
Lemma while_loop_invariant (P : merge_state → Prop) :
  (∀ st st', i st < length (sorted_lori st) - 1 → P st →
             loop_body list_of_set cutoff st = Ok st' → P st') →
  ∀ fuel st,
    (2 * length (sorted_lori st) ≤ fuel + i st)%nat → P st →
    ∃ st', while_loop list_of_set cutoff fuel st = Some (Ok st') ∧ P st' ∧
           ¬ i st' < length (sorted_lori st') - 1.
Proof.
  intros Hstep. induction fuel as [|fuel IH]; intros st Hfuel HP; simpl.
  - rewrite bool_decide_eq_false_2 by lia. exists st. split; [done|]. split; [done|lia].
  - case_bool_decide as Hguard; [|by eauto].
    destruct (loop_body_cases st Hguard) as (r_i & r_i1 & _ & _ & Hcases).
    assert (∃ st', loop_body list_of_set cutoff st = Ok st') as [st' Hbody].
    { destruct Hcases as [H|[(r_i2 & _ & H)|[H|H]]]; eauto. }
    rewrite Hbody. apply IH; [|by eauto].
    destruct (loop_body_progress st st' Hguard Hbody) as [(? & ? & ?)|[-> ->]]; lia.
Qed.
End merge_engine_facts.

Lemma StronglySorted_lookup_lt {A} (R : A → A → Prop) l n1 n2 a b :
  StronglySorted R l → n1 < n2 → l !! n1 = Some a → l !! n2 = Some b → R a b.
Proof.
  intros Hl. revert n1 n2. induction Hl as [|x l Hl IH Hx]; intros n1 n2 Hlt H1 H2.
  - done.
  - destruct n2 as [|n2]; [lia|]. destruct n1 as [|n1]; simpl in *.
    + injection H1 as <-. rewrite Forall_forall in Hx. apply Hx.
      by eapply list_elem_of_lookup_2.
    + apply (IH n1 n2); [lia|done..].
Qed.

Lemma unannotated_Permutation l l' : l ≡ₚ l' → unannotated l = unannotated l'.
Proof. unfold unannotated. by intros ->. Qed.

Lemma unannotated_app l l' : unannotated (l ++ l') = unannotated l + unannotated l'.
Proof. unfold unannotated. by rewrite filter_app, length_app. Qed.

Lemma unannotated_le l : (unannotated l ≤ length l)%nat.
Proof. apply length_filter. Qed.

Lemma count_from_Permutation m l l' : l ≡ₚ l' → count_from m l = count_from m l'.
Proof. unfold count_from. by intros ->. Qed.

Lemma count_from_app m l l' : count_from m (l ++ l') = count_from m l + count_from m l'.
Proof. unfold count_from. by rewrite filter_app, length_app. Qed.

Lemma count_from_cons m r l :
  count_from m (r :: l) = (if bool_decide (m ≤ start_val r)%Z then 1 else 0) + count_from m l.
Proof.
  unfold count_from. rewrite filter_cons.
  destruct (decide (m ≤ start_val r)%Z).
  - by rewrite bool_decide_eq_true_2.
  - by rewrite bool_decide_eq_false_2.
Qed.

Lemma count_from_below m l :
  Forall (λ x, (start_val x < m)%Z) l → count_from m l = 0.
Proof.
  induction 1 as [|x l Hx _ IH]; [done|].
  rewrite count_from_cons, IH, bool_decide_eq_false_2; [done|lia].
Qed.

Lemma while_loop_more_fuel list_of_set cutoff fuel fuel' st res :
  (fuel ≤ fuel')%nat →
  while_loop list_of_set cutoff fuel st = Some res →
  while_loop list_of_set cutoff fuel' st = Some res.
Proof.
  revert fuel' st. induction fuel as [|fuel IH]; intros fuel' st Hle; simpl.
  - case_bool_decide as Hg; [done|]. intros <-.
    destruct fuel'; simpl; by rewrite bool_decide_eq_false_2.
  - destruct fuel' as [|fuel']; [lia|]. simpl.
    case_bool_decide; [|done].
    destruct (loop_body list_of_set cutoff st); [|done]. apply IH. lia.
Qed.

Section check_adjacent_regions_facts.
Variable list_of_set : list BlastHit → list BlastHit.
Variable cutoff : Qc.

(** The statistics count every region that leaves the working list
    unannotated, once. *)
Lemma loop_body_consumed st st' :
  i st < length (sorted_lori st) - 1 →
  loop_body list_of_set cutoff st = Ok st' →
  FragmentedOrfs (stats st') + unannotated (sorted_lori st') =
  FragmentedOrfs (stats st) + unannotated (sorted_lori st).
Proof.
  intros Hguard Hbody.
  destruct (loop_body_cases list_of_set cutoff st Hguard)
    as (r_i & r_i1 & Hi & Hi1 & [H|[(r_i2 & Hi2 & H)|[H|H]]]);
    rewrite H in Hbody; injection Hbody as <-; simpl; try done.
  - rewrite (unannotated_Permutation (sorted_lori st) _ (delete_two _ _ _ _ Hi Hi1)).
    rewrite (unannotated_Permutation _ _ (sorted_Permutation _ _ _)), unannotated_app.
    change (r_i :: r_i1 :: ?l) with ([r_i; r_i1] ++ l). rewrite unannotated_app.
    unfold unannotated at 2. simpl. unfold unannotated at 2. lia.
  - rewrite (unannotated_Permutation (sorted_lori st) _ (delete_three _ _ _ _ _ Hi Hi1 Hi2)).
    rewrite (unannotated_Permutation _ _ (sorted_Permutation _ _ _)), unannotated_app.
    change (r_i :: r_i1 :: r_i2 :: ?l) with ([r_i; r_i1; r_i2] ++ l). rewrite unannotated_app.
    unfold unannotated at 2. simpl. unfold unannotated at 2. lia.
Qed.

(** C8.  [check_adjacent_regions] returns for every list of regions: the
    loop is left after at most twice as many iterations as the list has
    regions, and no iteration raises.  Every fuse strictly shortens the
    working list and rewinds the index by at most one; every other
    iteration advances the index.  The number of regions counted as
    consumed into fused candidates (the increase of [FragmentedOrfs]) is at
    most the number of regions given. *)
Theorem check_adjacent_regions_terminates lori sd :
  (∃ individual merged sd',
     check_adjacent_regions list_of_set lori cutoff sd =
       Some (Ok (individual, merged, sd')) ∧
     (FragmentedOrfs sd' ≤ FragmentedOrfs sd + length lori)%nat) ∧
  (∀ st st',
     i st < length (sorted_lori st) - 1 →
     loop_body list_of_set cutoff st = Ok st' →
     (length (sorted_lori st') < length (sorted_lori st) ∧
      (i st - 1 ≤ i st')%nat ∧ (i st' ≤ i st)%nat)
     ∨ (sorted_lori st' = sorted_lori st ∧ i st' = i st + 1)).
Proof.
  split; [|apply loop_body_progress].
  destruct (while_loop_invariant list_of_set cutoff
              (λ st, FragmentedOrfs (stats st) + unannotated (sorted_lori st) =
                     FragmentedOrfs sd + unannotated lori))
    with (fuel := 2 * length lori) (st := initial_state lori sd)
    as (st' & Hrun & HP & _).
  - intros st st' Hg HP Hb. simpl in *. by rewrite (loop_body_consumed st st' Hg Hb).
  - simpl. rewrite sorted_length. lia.
  - simpl. by rewrite (unannotated_Permutation _ _ (sorted_Permutation _ _ _)).
  - exists (IndividualList st'), (MergedList st'), (final_statistics st').
    unfold check_adjacent_regions. rewrite Hrun. split; [done|]. simpl.
    pose proof (unannotated_le lori). lia.
Qed.
End check_adjacent_regions_facts.

Section last_region_facts.
Variable list_of_set : list BlastHit → list BlastHit.
Variable cutoff : Qc.

(** What an iteration does to [IndividualList]: nothing, or it records the
    region at the index, which is not the last of the working list. *)
Lemma loop_body_records st st' :
  i st < length (sorted_lori st) - 1 →
  loop_body list_of_set cutoff st = Ok st' →
  IndividualList st' = IndividualList st ∨
  ∃ r_i, sorted_lori st !! i st = Some r_i ∧
         i st + 1 < length (sorted_lori st) ∧
         is_individual r_i = true ∧
         IndividualList st' = supersede r_i (IndividualList st).
Proof.
  intros Hguard Hbody. unfold loop_body in Hbody.
  destruct (lookup_lt_is_Some_2 (sorted_lori st) (i st)) as [r_i Hi]; [lia|].
  destruct (lookup_lt_is_Some_2 (sorted_lori st) (i st + 1)) as [r_i1 Hi1]; [lia|].
  rewrite (item_Some _ _ _ Hi), (item_Some _ _ _ Hi1) in Hbody. simpl in Hbody.
  assert (∀ st0, (if is_individual r_i
                  then Ok (move_on (supersede r_i (IndividualList st)) st)
                  else Ok (move_on (IndividualList st) st)) = Ok st0 →
                 IndividualList st0 = IndividualList st ∨
                 ∃ r, sorted_lori st !! i st = Some r ∧ i st + 1 < length (sorted_lori st) ∧
                      is_individual r = true ∧
                      IndividualList st0 = supersede r (IndividualList st)) as Hrec.
  { intros st0. destruct (is_individual r_i) eqn:Hind; intros [= <-]; simpl; [|by left].
    right. exists r_i. repeat split; [done|lia|done]. }
  destruct (compare_regions r_i r_i1 cutoff); [injection Hbody as <-; by left|].
  case_bool_decide; [|by apply Hrec].
  destruct (lookup_lt_is_Some_2 (sorted_lori st) (i st + 2)) as [r_i2 Hi2]; [lia|].
  rewrite (item_Some _ _ _ Hi2) in Hbody. simpl in Hbody.
  destruct (compare_regions r_i r_i2 cutoff); [injection Hbody as <-; by left|].
  by apply Hrec.
Qed.

(** While at most one region of the sorted working list starts at [m] or
    after it, that region is the last one, and what is recorded as a
    standalone candidate starts before [m]. *)
Lemma loop_body_last (m : Z) st st' :
  i st < length (sorted_lori st) - 1 →
  StronglySorted (λ a b, (start_val a <=? start_val b)%Z = true) (sorted_lori st) ∧
  (count_from m (sorted_lori st) ≤ 1)%nat ∧
  Forall (λ p, (start_val p < m)%Z) (IndividualList st) →
  loop_body list_of_set cutoff st = Ok st' →
  StronglySorted (λ a b, (start_val a <=? start_val b)%Z = true) (sorted_lori st') ∧
  (count_from m (sorted_lori st') ≤ 1)%nat ∧
  Forall (λ p, (start_val p < m)%Z) (IndividualList st').
Proof.
  intros Hguard (Hsorted & Hcount & Hind) Hbody.
  assert (∀ r_i r_i1, sorted_lori st !! i st = Some r_i →
                      sorted_lori st !! (i st + 1) = Some r_i1 →
                      (start_val r_i < m)%Z) as Hbelow.
  { intros r_i r_i1 Hi Hi1.
    pose proof (StronglySorted_lookup_lt _ _ (i st) (i st + 1) _ _ Hsorted
                  ltac:(lia) Hi Hi1) as Hle. simpl in Hle.
    rewrite (count_from_Permutation _ _ _ (delete_two _ _ _ _ Hi Hi1)),
      !count_from_cons in Hcount.
    repeat case_bool_decide; lia. }
  destruct (loop_body_cases list_of_set cutoff st Hguard)
    as (r_i & r_i1 & Hi & Hi1 & [H|[(r_i2 & Hi2 & H)|[H|H]]]);
    rewrite H in Hbody; injection Hbody as <-; simpl.
  - split; [apply sorted_StronglySorted; [apply Z_leb_total|apply Z_leb_trans]|].
    split; [|done].
    rewrite (count_from_Permutation _ _ _ (sorted_Permutation _ _ _)), count_from_app.
    rewrite (count_from_Permutation _ _ _ (delete_two _ _ _ _ Hi Hi1)),
      !count_from_cons in Hcount.
    rewrite count_from_cons. unfold start_val at 1. simpl. fold (start_val r_i).
    unfold count_from at 2. simpl. repeat case_bool_decide; lia.
  - split; [apply sorted_StronglySorted; [apply Z_leb_total|apply Z_leb_trans]|].
    split; [|done].
    rewrite (count_from_Permutation _ _ _ (sorted_Permutation _ _ _)), count_from_app.
    rewrite (count_from_Permutation _ _ _ (delete_three _ _ _ _ _ Hi Hi1 Hi2)),
      !count_from_cons in Hcount.
    rewrite count_from_cons. unfold start_val at 1. simpl. fold (start_val r_i).
    unfold count_from at 2. simpl. repeat case_bool_decide; lia.
  - split; [done|]. split; [done|].
    unfold supersede. apply Forall_app. split.
    + rewrite Forall_forall in Hind. apply Forall_forall.
      intros p Hp%list_elem_of_filter. apply Hind, Hp.
    + constructor; [by eapply Hbelow|constructor].
  - done.
Qed.

(** C10.  The region that starts after every other region of the list is
    never recorded as a standalone candidate, whatever its note says:
    everything in the returned [IndividualList] starts before it.  When it
    is the only region, both lists are returned empty.  In every iteration
    the region that the standalone-recording step looks at is at an index
    before the last one of the working list. *)
Theorem check_adjacent_regions_last_region l1 r l2 sd :
  Forall (λ x, (start_val x < start_val r)%Z) (l1 ++ l2) →
  (∃ individual merged sd',
     check_adjacent_regions list_of_set (l1 ++ r :: l2) cutoff sd =
       Some (Ok (individual, merged, sd')) ∧
     Forall (λ p, (start_val p < start_val r)%Z) individual ∧
     (r ∉ individual) ∧
     (l1 ++ l2 = [] → individual = [] ∧ merged = [])) ∧
  (∀ st st',
     i st < length (sorted_lori st) - 1 →
     loop_body list_of_set cutoff st = Ok st' →
     IndividualList st' = IndividualList st ∨
     ∃ r_i, sorted_lori st !! i st = Some r_i ∧
            i st + 1 < length (sorted_lori st) ∧
            is_individual r_i = true ∧
            IndividualList st' = supersede r_i (IndividualList st)).
Proof.
  intros Hmax. split; [|apply loop_body_records].
  destruct (while_loop_invariant list_of_set cutoff
              (λ st, StronglySorted (λ a b, (start_val a <=? start_val b)%Z = true)
                       (sorted_lori st) ∧
                     (count_from (start_val r) (sorted_lori st) ≤ 1)%nat ∧
                     Forall (λ p, (start_val p < start_val r)%Z) (IndividualList st)))
    with (fuel := 2 * length (l1 ++ r :: l2)) (st := initial_state (l1 ++ r :: l2) sd)
    as (st' & Hrun & (_ & _ & Hind) & _).
  - intros st st' Hg HP Hb. by apply (loop_body_last _ st st').
  - simpl. rewrite sorted_length. lia.
  - simpl. split; [apply sorted_StronglySorted; [apply Z_leb_total|apply Z_leb_trans]|].
    split; [|constructor].
    rewrite (count_from_Permutation _ _ _ (sorted_Permutation _ _ _)).
    rewrite (count_from_Permutation _ (l1 ++ r :: l2) (r :: (l1 ++ l2)))
      by (symmetry; apply Permutation_middle).
    rewrite count_from_cons, (count_from_below _ _ Hmax). case_bool_decide; lia.
  - exists (IndividualList st'), (MergedList st'), (final_statistics st').
    unfold check_adjacent_regions in *. rewrite Hrun.
    split; [done|]. split; [done|]. split.
    + intros Hin. rewrite Forall_forall in Hind. specialize (Hind _ Hin). lia.
    + intros Hnil. apply app_eq_nil in Hnil as [-> ->].
      simpl in Hrun. injection Hrun as <-. done.
Qed.
End last_region_facts.

(** ** The individual-ORF classifier *)

Lemma Qc_of_Z_zero a : Qc_of_Z a = 0%Qc → a = 0%Z.
Proof.
  intros H. apply (f_equal this) in H. unfold Qc_of_Z, inject_Z in H. simpl in H.
  by injection H.
Qed.

Lemma Qc_of_Z_div_zero a b :
  b ≠ 0%Z → (Qc_of_Z a / Qc_of_Z b)%Qc = 0%Qc ↔ a = 0%Z.
Proof.
  intros Hb. split.
  - intros H.
    assert (Qc_of_Z b ≠ 0%Qc) as Hb' by (intros Hq; by apply Hb, Qc_of_Z_zero).
    pose proof (Qcmult_div_r (Qc_of_Z a) (Qc_of_Z b) Hb') as Hm.
    rewrite H, Qcmult_0_r in Hm. by apply Qc_of_Z_zero.
  - intros ->. unfold Qcdiv. apply Qcmult_0_l.
Qed.

Lemma AverageDatabaseLength_zero r :
  0 < length (hits r) →
  AverageDatabaseLength r = 0%Qc ↔ sum_list (slen <$> hits r) = 0%Z.
Proof. intros H. unfold AverageDatabaseLength. apply Qc_of_Z_div_zero. lia. Qed.


Lemma flag_short_ok InitialList length_cutoff :
  Forall (λ r, AverageDatabaseLength r ≠ 0%Qc) InitialList →
  flag_short InitialList length_cutoff =
    Ok ((λ r, convert_region_to_pseudo r (Ratio r * Qc_of_Z 100)%Qc) <$>
          filter (λ r, (Ratio r < length_cutoff)%Qc) InitialList).
Proof.
  induction 1 as [|r l Hr _ IH]; simpl; [done|].
  rewrite bool_decide_eq_false_2 by done. rewrite IH. simpl.
  rewrite filter_cons. case_bool_decide; destruct (decide _); done.
Qed.


(** ** The report parser *)

Lemma bind_Ok {A B} (m : result A) (f : A → result B) b :
  m ≫= f = Ok b ↔ ∃ a, m = Ok a ∧ f a = Ok b.
Proof.
  destruct m as [a|e]; simpl.
  - split; [by eauto|]. by intros (a' & [= <-] & H).
  - split; [done|]. by intros (a' & [=] & _).
Qed.

Lemma prefix_cons a s1 b s2 :
  String.prefix (String a s1) (String b s2) = true ↔ a = b ∧ String.prefix s1 s2 = true.
Proof.
  change (String.prefix (String a s1) (String b s2))
    with (if ascii_dec a b then String.prefix s1 s2 else false).
  destruct (ascii_dec a b) as [Heq|Hne]; [tauto|].
  split; [done|]. by intros [? _].
Qed.

(** A header line is a comment line and not a [# 0 hits found] line. *)
Lemma header_not_other line :
  re_match "# Query:" line = true →
  re_match "# 0 hits found" line = false ∧ re_match "#" line = true.
Proof.
  unfold re_match.
  destruct line as [|c1 [|c2 [|c3 line]]]; try done.
  - intros [_ H]%prefix_cons. done.
  - intros [_ [_ H]%prefix_cons]%prefix_cons. done.
  - intros [<- [<- [<- _]%prefix_cons]%prefix_cons]%prefix_cons. done.
Qed.

(** C4 (as amended).  A header line for another identifier than the one
    expected at the current index is not rejected: reading it raises
    nothing and leaves the dictionary of queries as it was, so that its
    coordinates are not recorded.  The only thing it can do is to end the
    hits of the expected query, when the line before it is one of them. *)
Theorem parse_line_header_mismatch queries lines line_number line st q :
  item queries (queryIndex st) = Ok q →
  re_match "# Query:" line = true →
  re_match ("# Query: " +:+ q) line = false →
  re_match q line = false →
  ∃ st',
    parse_line queries lines line_number line st = Ok st' ∧
    QueryDict st' = QueryDict st ∧
    next_obj st' = next_obj st ∧
    queryIndex st' =
      match item_Z lines (Z.of_nat line_number - 1) with
      | Ok previous => if re_match q previous then queryIndex st + 1 else queryIndex st
      | Raise _ => queryIndex st
      end.
Proof.
  intros Hq Hheader Hother Hrow.
  destruct (header_not_other line Hheader) as [Hzero Hcomment].
  unfold parse_line, parse_branches. rewrite Hq. simpl.
  rewrite Hother, Hzero, Hrow. simpl.
  unfold end_of_hits. rewrite Hcomment, Hq.
  destruct (item_Z lines (Z.of_nat line_number - 1)) as [previous|e]; [|by eauto].
  destruct (re_match q previous); eauto.
Qed.

(** C4, counterexample.  In [report_mismatch] the header at line 1 names
    [Q2] while the query expected there is [Q1].  [parse_blast] does not
    fail: it returns the region of [Q1] alone, and the header and the hit of
    [Q2] are skipped. *)
Lemma parse_blast_accepts_mismatch :
  (∃ st header,
     parse_lines ["Q1"; "Q2"] report_mismatch 0 (take 1 report_mismatch)
                 (mkParseState 0 [] 1) = Ok st ∧
     item ["Q1"; "Q2"] (queryIndex st) = Ok "Q1" ∧
     report_mismatch !! 1 = Some header ∧
     item (FieldsInLine false header) 2 = Ok "Q2") ∧
  collect_query_ids report_mismatch = Ok ["Q1"; "Q2"] ∧
  ∃ r, parse_blast report_mismatch "BlastP" = Ok [r] ∧
       query r = "Q1" ∧ start_val r = 1%Z ∧ end_ r = 100%Z ∧
       accession <$> hits r = ["acc1"].
Proof.
  split; [|split].
  - eexists _, _. repeat split; vm_compute; reflexivity.
  - vm_compute. reflexivity.
  - eexists. split; [vm_compute; reflexivity|]. repeat split.
Qed.

(** [lines[-1]] is the last line. *)
Lemma item_Z_minus_one {A} (l : list A) : item_Z l (-1) = of_option IndexError (last l).
Proof.
  unfold item_Z. rewrite bool_decide_eq_false_2 by lia.
  destruct l as [|x l _] using rev_ind; [done|].
  rewrite last_snoc, length_app. simpl.
  rewrite bool_decide_eq_true_2 by lia. unfold item.
  replace (Z.to_nat (Z.of_nat (length l + 1) + -1)) with (length l) by lia.
  by rewrite list_lookup_middle.
Qed.

(** X24.  On the first line the line "before" is the last line of the file: a
    comment as first line ends the hits of the current query when the file
    ends with one of its hits. *)
Lemma end_of_hits_first_line queries lines line st q final :
  re_match "#" line = true →
  item queries (queryIndex st) = Ok q →
  last lines = Some final →
  re_match q final = true →
  end_of_hits queries lines 0 line st =
    mkParseState (queryIndex st + 1) (QueryDict st) (next_obj st).
Proof.
  intros Hcomment Hq Hlast Hfinal. unfold end_of_hits.
  rewrite Hcomment, Hq. change (Z.of_nat 0 - 1)%Z with (-1)%Z.
  rewrite item_Z_minus_one, Hlast. simpl. by rewrite Hfinal.
Qed.

(** C5, the defect.  [report_no_trailer] starts with a comment and ends with
    a hit of its first query [Q1].  Reading its first line moves the query
    index from 0 to 1, as at the end of the hits of [Q1]; the second line
    then looks up [queries[1]] and [parse_blast] raises [IndexError]. *)
Theorem first_line_taken_as_end_of_hits :
  collect_query_ids report_no_trailer = Ok ["Q1"] ∧
  (∃ line,
     report_no_trailer !! 0 = Some line ∧
     parse_line ["Q1"] report_no_trailer 0 line (mkParseState 0 [] 1) =
       Ok (mkParseState 1 [] 1)) ∧
  parse_blast report_no_trailer "BlastP" = Raise IndexError.
Proof.
  split; [by vm_compute|]. split; [|by vm_compute].
  eexists. split; [reflexivity|]. by vm_compute.
Qed.

Lemma dict_get_elem k d info : dict_get k d = Some info → ∃ k', (k', info) ∈ d.
Proof.
  unfold dict_get. destruct (List.find _ d) as [[k' v]|] eqn:Hfind; [|done].
  intros [= <-]. exists k'. apply list_elem_of_In. by apply find_some in Hfind as [? _].
Qed.

Lemma dict_set_elem k v d k' v' :
  (k', v') ∈ dict_set k v d → (k', v') = (k, v) ∨ (k', v') ∈ d.
Proof.
  induction d as [|[k0 v0] d IH]; simpl.
  - intros ->%list_elem_of_singleton. by left.
  - destruct (String.eqb k0 k).
    + intros [->|H]%elem_of_cons; [by left|]. right. by constructor.
    + intros [->|H]%elem_of_cons; [right; by constructor|].
      destruct (IH H) as [?|?]; [by left|]. right. by constructor.
Qed.

Lemma dict_del_elem k d d' kv : dict_del k d = Ok d' → kv ∈ d' → kv ∈ d.
Proof.
  revert d'. induction d as [|[k0 v0] d IH]; simpl; intros d'; [done|].
  destruct (String.eqb k0 k).
  - intros [= <-] H. by constructor.
  - intros (d'' & Hdel & [= <-])%bind_Ok [->|H]%elem_of_cons; [by constructor|].
    constructor. by eapply IH.
Qed.

Section parse_facts.
Variable lines : list string.

Lemma dict_set_scaled k v d :
  dict_scaled lines d →
  (∀ l, qi_hits v = Some l → Forall (scaled_hit lines) l) →
  dict_scaled lines (dict_set k v d).
Proof.
  intros Hd Hv k' info l [[= -> ->]|Hin]%dict_set_elem; [apply Hv|by eapply Hd].
Qed.

Lemma parse_branches_scaled queries line st st' :
  line ∈ lines →
  dict_scaled lines (QueryDict st) →
  parse_branches queries line st = Ok st' →
  dict_scaled lines (QueryDict st').
Proof.
  intros Hline Hd. unfold parse_branches.
  intros (q & _ & H)%bind_Ok.
  destruct (re_match ("# Query: " +:+ q) line).
  { apply bind_Ok in H as (c & _ & H). apply bind_Ok in H as (s & _ & H).
    apply bind_Ok in H as (e & _ & H). apply bind_Ok in H as (sd & _ & H).
    injection H as <-. simpl. by apply dict_set_scaled. }
  destruct (re_match "# 0 hits found" line).
  { apply bind_Ok in H as (d & Hdel & H). injection H as <-. simpl.
    intros k info l Hin. eapply Hd, dict_del_elem; done. }
  destruct (re_match q line); [|by injection H as <-].
  apply bind_Ok in H as (info & Hget & H). apply bind_Ok in H as (a & Ha & H).
  apply bind_Ok in H as (sl & Hsl & H). apply bind_Ok in H as (ss & _ & H).
  apply bind_Ok in H as (se & _ & H). apply bind_Ok in H as (ev & _ & H).
  injection H as <-. simpl. apply dict_set_scaled; [done|].
  simpl. intros l [= <-]. apply Forall_app. split.
  - destruct (dict_get q (QueryDict st)) as [info'|] eqn:Hq; [|done].
    injection Hget as ->. destruct (qi_hits info) as [l|] eqn:Hl; [|constructor].
    apply dict_get_elem in Hq as [k' Hin]. by eapply Hd.
  - repeat constructor. exists line, sl. by repeat split.
Qed.

Lemma parse_lines_scaled queries todo line_number st st' :
  todo ⊆ lines →
  dict_scaled lines (QueryDict st) →
  parse_lines queries lines line_number todo st = Ok st' →
  dict_scaled lines (QueryDict st').
Proof.
  revert line_number st. induction todo as [|line todo IH]; simpl; intros n st Hsub Hd.
  - by intros [= <-].
  - intros (st1 & Hline & Hrest)%bind_Ok.
    apply (IH (S n) st1); [set_solver| |done].
    unfold parse_line in Hline. apply bind_Ok in Hline as (st0 & Hbr & [= <-]).
    assert (dict_scaled lines (QueryDict st0)) as Hd0.
    { eapply parse_branches_scaled; [|done..]. set_solver. }
    unfold end_of_hits. repeat case_match; done.
Qed.

Lemma region_list_scaled blast_format d next regions :
  dict_scaled lines d →
  region_list blast_format d next = Ok regions →
  ∀ r, r ∈ regions → Forall (scaled_hit lines) (hits r).
Proof.
  revert next regions. induction d as [|[key info] d IH]; simpl; intros next regions Hd.
  - intros [= <-] r Hr. by apply elem_of_nil in Hr.
  - intros (p & Hp & H)%bind_Ok. apply bind_Ok in H as (x & Hx & H).
    apply bind_Ok in H as (rest & Hrest & [= <-]).
    assert (∀ l, qi_hits info = Some l → Forall (scaled_hit lines) l) as Hinfo.
    { intros l. apply (Hd key). by constructor. }
    assert (dict_scaled lines d) as Hd'.
    { intros k i l Hin. apply (Hd k). by constructor. }
    intros r [Hr|[Hr|Hr]%elem_of_app]%elem_of_app; [| |by eapply IH].
    + destruct (String.eqb blast_format "BlastP"); [|injection Hp as <-; by apply elem_of_nil in Hr].
      apply bind_Ok in Hp as (h & Hh & [= <-]).
      apply list_elem_of_singleton in Hr as ->. simpl.
      destruct (qi_hits info); [|done]. injection Hh as <-. by apply Hinfo.
    + destruct (String.eqb blast_format "BlastX"); [|injection Hx as <-; by apply elem_of_nil in Hr].
      apply bind_Ok in Hx as (h & Hh & Hx). apply bind_Ok in Hx as ([lo hi] & _ & [= <-]).
      apply list_elem_of_singleton in Hr as ->. simpl.
      destruct (qi_hits info); [|done]. injection Hh as <-. by apply Hinfo.
Qed.

(** C6 (as amended).  Whatever the format of the report, translated or
    not, every hit of every region that [parse_blast] returns was read
    from a row of the report, and its target length is the [slen] field of
    that row multiplied by 3. *)
Theorem parse_blast_scales_slen blast_format regions r h :
  parse_blast lines blast_format = Ok regions →
  r ∈ regions → h ∈ hits r →
  ∃ row n,
    row ∈ lines ∧
    item (FieldsInLine false row) 1 = Ok (accession h) ∧
    item (FieldsInLine false row) 10 ≫= py_int = Ok n ∧
    slen h = (n * 3)%Z.
Proof.
  unfold parse_blast. intros (queries & _ & H)%bind_Ok Hr Hh.
  apply bind_Ok in H as (st & Hlines & Hregions).
  apply parse_lines_scaled in Hlines; [|done|].
  - pose proof (region_list_scaled _ _ _ _ Hlines Hregions r Hr) as Hall.
    rewrite Forall_forall in Hall. apply Hall, Hh.
  - intros k info l Hin. by apply elem_of_nil in Hin.
Qed.
End parse_facts.

(** C6, counterexample.  [report_blastp] is the report of a protein search,
    which is not translated; the [slen] field of its hit is 192, and the
    target length stored for the hit is 576 all the same. *)
Lemma parse_blast_scales_protein_report :
  ∃ r h row,
    parse_blast report_blastp "BlastP" = Ok [r] ∧
    hits r = [h] ∧
    report_blastp !! 4 = Some row ∧
    item (FieldsInLine false row) 10 = Ok "192" ∧
    py_int "192" = Ok 192%Z ∧
    slen h = 576%Z ∧
    slen h ≠ 192%Z.
Proof.
  eexists _, _, _. split; [vm_compute; reflexivity|].
  split; [reflexivity|]. split; [reflexivity|].
  split; [vm_compute; reflexivity|]. split; [vm_compute; reflexivity|].
  split; [reflexivity|]. done.
Qed.

(** ** The start coordinates of the two output lists *)

(** C3, the defect.  [region_A] and [region_B] both start at 500, a value
    read from two lines of a report and so held by two objects.
    [check_adjacent_regions] first fuses [region_B] with [region_C], then
    [region_A] with [region_D] across that fused region: [MergedList] ends
    with two entries that start at 500, because [is not] tells the two
    objects apart.  In the same way [IndividualList] ends with the two
    flagged regions [region_S1] and [region_S2], which both start at 500. *)
Theorem output_lists_repeat_start :
  (∃ p1 p2 sd,
     check_adjacent_regions remove_dups [region_A; region_B; region_C; region_D]
                            shared_hits_default StatisticsDict =
       Some (Ok ([], [p1; p2], sd)) ∧
     start_val p1 = 500%Z ∧ start_val p2 = 500%Z ∧
     py_is_not (start p1) (start p2) = true) ∧
  (∃ sd,
     check_adjacent_regions remove_dups [region_S1; region_S2; region_C]
                            shared_hits_default StatisticsDict =
       Some (Ok ([region_S1; region_S2], [], sd)) ∧
     start_val region_S1 = start_val region_S2).
Proof.
  split.
  - eexists _, _, _. split; [vm_compute; reflexivity|]. by vm_compute.
  - eexists. split; [vm_compute; reflexivity|]. reflexivity.
Qed.


(** Putting an entry on an output list keeps the start coordinates on it
    distinct, where the identity test is a test on values. *)
Lemma supersede_NoDup (S : list pyint) pseudo L :
  (∀ s s', s ∈ S → s' ∈ S → int_val s = int_val s' → py_is s s' = true) →
  start pseudo ∈ S →
  Forall (λ r, start r ∈ S) L →
  NoDup (start_val <$> L) →
  NoDup (start_val <$> supersede pseudo L).
Proof.
  intros Hid Hp HL Hnd. unfold supersede. rewrite fmap_app. simpl.
  apply NoDup_app. split; [|split].
  - clear Hp. induction L as [|r L IH]; [constructor|].
    apply Forall_cons in HL as [Hr HL]. apply NoDup_cons in Hnd as [Hnot Hnd].
    rewrite filter_cons. destruct (decide _); [|by apply IH].
    simpl. apply NoDup_cons. split; [|by apply IH].
    intros (r' & Heq & Hin%list_elem_of_filter)%list_elem_of_fmap.
    apply Hnot, list_elem_of_fmap. exists r'. split; [done|apply Hin].
  - intros v (r & -> & [Hnot Hin]%list_elem_of_filter)%list_elem_of_fmap
      Heq%list_elem_of_singleton.
    rewrite Forall_forall in HL.
    unfold py_is_not in Hnot. rewrite (Hid _ _ (HL _ Hin) Hp Heq) in Hnot. done.
  - apply NoDup_singleton.
Qed.

Lemma supersede_starts (S : list pyint) pseudo L :
  start pseudo ∈ S →
  Forall (λ r, start r ∈ S) L →
  Forall (λ r, start r ∈ S) (supersede pseudo L).
Proof.
  intros Hp HL. unfold supersede. apply Forall_app. split.
  - rewrite Forall_forall in HL. apply Forall_forall.
    intros r Hr%list_elem_of_filter. apply HL, Hr.
  - by repeat constructor.
Qed.

Lemma delete_subseteq {A} n (l : list A) : delete n l ⊆ l.
Proof.
  revert n. induction l as [|x l IH]; intros [|n]; simpl; [done..| |].
  - intros y Hy. by constructor.
  - intros y [->|Hy]%elem_of_cons; [by constructor|]. constructor. by apply (IH n).
Qed.

Section distinct_starts.
Variable list_of_set : list BlastHit → list BlastHit.
Variable cutoff : Qc.

(** X25.  Where equal start coordinates of the regions given are held by one
    object (as are all values from -5 to 256), the identity test is the
    test on values that the comments of the source describe, and neither
    output list ever holds two entries with the same start coordinate. *)
Lemma check_adjacent_regions_distinct_starts lori sd individual merged sd' :
  starts_identified lori →
  check_adjacent_regions list_of_set lori cutoff sd = Some (Ok (individual, merged, sd')) →
  NoDup (start_val <$> merged) ∧ NoDup (start_val <$> individual).
Proof.
  intros Hid Hrun.
  set (S := start <$> lori).
  assert (∀ s s', s ∈ S → s' ∈ S → int_val s = int_val s' → py_is s s' = true) as HS.
  { intros s s' (r & -> & Hr)%list_elem_of_fmap (r' & -> & Hr')%list_elem_of_fmap.
    by apply Hid. }
  destruct (while_loop_invariant list_of_set cutoff
              (λ st, Forall (λ r, start r ∈ S) (sorted_lori st) ∧
                     Forall (λ r, start r ∈ S) (MergedList st) ∧
                     Forall (λ r, start r ∈ S) (IndividualList st) ∧
                     NoDup (start_val <$> MergedList st) ∧
                     NoDup (start_val <$> IndividualList st)))
    with (fuel := 2 * length lori) (st := initial_state lori sd)
    as (st' & Hrun' & (_ & _ & _ & Hmer & Hind) & _).
  - intros st st' Hguard (Hl & HM & HI & HMn & HIn) Hbody.
    assert (∀ n r, sorted_lori st !! n = Some r → start r ∈ S) as Hat.
    { intros n r Hn. rewrite Forall_forall in Hl. by eapply Hl, list_elem_of_lookup_2. }
    assert (∀ pseudo rest, start pseudo ∈ S → rest ⊆ sorted_lori st →
              Forall (λ r, start r ∈ S) (sorted Z.leb start_val (rest ++ [pseudo]))) as Hnew.
    { intros pseudo rest Hp Hrest. rewrite sorted_Permutation. apply Forall_app.
      split; [|by repeat constructor].
      rewrite Forall_forall in Hl. apply Forall_forall. intros r Hr. by apply Hl, Hrest. }
    pose proof (@delete_subseteq RegionInfo) as Hdel.
    destruct (loop_body_cases list_of_set cutoff st Hguard)
      as (r_i & r_i1 & Hi & Hi1 & [H|[(r_i2 & Hi2 & H)|[H|H]]]);
      rewrite H in Hbody; injection Hbody as <-; simpl.
    + split; [apply Hnew; [exact (Hat _ _ Hi)|]|].
      { etrans; [apply Hdel|apply Hdel]. }
      split; [apply supersede_starts; [exact (Hat _ _ Hi)|done]|]. split; [done|].
      split; [|done]. eapply supersede_NoDup; [done|exact (Hat _ _ Hi)|done..].
    + split; [apply Hnew; [exact (Hat _ _ Hi)|]|].
      { etrans; [apply Hdel|]. etrans; [apply Hdel|apply Hdel]. }
      split; [apply supersede_starts; [exact (Hat _ _ Hi)|done]|]. split; [done|].
      split; [|done]. eapply supersede_NoDup; [done|exact (Hat _ _ Hi)|done..].
    + split; [done|]. split; [done|].
      split; [apply supersede_starts; [exact (Hat _ _ Hi)|done]|]. split; [done|].
      eapply supersede_NoDup; [done|exact (Hat _ _ Hi)|done..].
    + done.
  - simpl. rewrite sorted_length. lia.
  - simpl. split; [|by repeat constructor].
    rewrite sorted_Permutation. apply Forall_forall. intros r Hr.
    apply list_elem_of_fmap. eauto.
  - unfold check_adjacent_regions in Hrun. rewrite Hrun' in Hrun.
    injection Hrun as <- <- _. done.
Qed.
End distinct_starts.

(** ** [sorted] is stable *)

Section sorted_stable.
Context {A K : Type} `{EqDecision K} (leb : K → K → bool) (key : A → K).
Hypothesis leb_refl : ∀ x, leb x x = true.

(** The elements with one and the same key keep their order. *)
Lemma sorted_stable k l :
  filter (λ x, key x = k) (sorted leb key l) = filter (λ x, key x = k) l.
Proof.
  induction l as [|x l IH]; simpl; [done|].
  rewrite filter_cons, <- IH. clear IH.
  induction (sorted leb key l) as [|y l' IH]; simpl.
  - by rewrite filter_cons.
  - destruct (leb (key x) (key y)) eqn:Hxy; [by rewrite filter_cons|].
    rewrite !filter_cons, IH.
    destruct (decide (key y = k)) as [Hy|Hy], (decide (key x = k)) as [Hx|Hx]; try done.
    rewrite Hx, Hy, leb_refl in Hxy. done.
Qed.
End sorted_stable.

(** ** The theorems at sample inputs *)

Lemma compare_regions_iff_mergeable_witness :
  hits region_empty = [] ∧
  compare_regions region_A region_empty shared_hits_default = false.
Proof.
  split; [reflexivity|].
  apply (proj2 (compare_regions_iff_mergeable region_A region_empty shared_hits_default)).
  right. reflexivity.
Defined.

Lemma join_regions_fields_witness :
  (∀ l : list BlastHit, remove_dups l ≡ₚ remove_dups l) ∧
  let r := join_regions remove_dups region_B region_C in
  start r = start region_B ∧
  end_ r = end_ region_C ∧
  strand r = strand region_B ∧
  contig r = contig region_B ∧
  query r = "locus_tag=pseudo_uniqueID" ∧
  note r = "Note=pseudogene candidate. Reason: Predicted fragmentation of a single gene.;colour=229 204 255" ∧
  NoDup (hits r) ∧
  (∀ h, h ∈ hits r ↔ h ∈ hits region_B ∨ h ∈ hits region_C) ∧
  StronglySorted (λ a b, (eval a ≤ eval b)%Qc) (hits r).
Proof.
  split; [reflexivity|].
  apply (join_regions_fields remove_dups). reflexivity.
Defined.

Lemma parse_line_header_mismatch_witness :
  ∃ line st st',
    report_mismatch !! 1 = Some line ∧
    item ["Q1"; "Q2"] (queryIndex st) = Ok "Q1" ∧
    re_match "# Query:" line = true ∧
    re_match ("# Query: " +:+ "Q1") line = false ∧
    re_match "Q1" line = false ∧
    parse_line ["Q1"; "Q2"] report_mismatch 1 line st = Ok st' ∧
    QueryDict st' = QueryDict st ∧
    next_obj st' = next_obj st ∧
    queryIndex st' = queryIndex st.
Proof.
  eexists _, (mkParseState 0 [("Q1", mkQueryInfo "c1" "Q1" (PyInt 1 1) 100 "+" None)] 2).
  destruct (parse_line_header_mismatch ["Q1"; "Q2"] report_mismatch 1
              ("# Query: Q2 c1 [200:300](+)" +:+ newline)
              (mkParseState 0 [("Q1", mkQueryInfo "c1" "Q1" (PyInt 1 1) 100 "+" None)] 2)
              "Q1") as (st' & Hline & Hdict & Hobj & Hindex);
    [reflexivity..|].
  exists st'. repeat split; try reflexivity; assumption.
Defined.

Lemma parse_blast_scales_slen_witness :
  parse_blast report_blastp "BlastP" = Ok [blastp_region] ∧
  blastp_region ∈ [blastp_region] ∧
  blastp_hit ∈ hits blastp_region ∧
  ∃ row n,
    row ∈ report_blastp ∧
    item (FieldsInLine false row) 1 = Ok (accession blastp_hit) ∧
    item (FieldsInLine false row) 10 ≫= py_int = Ok n ∧
    slen blastp_hit = (n * 3)%Z.
Proof.
  assert (parse_blast report_blastp "BlastP" = Ok [blastp_region]) as Hparse
    by (vm_compute; reflexivity).
  assert (blastp_region ∈ [blastp_region]) as Hregion by constructor.
  assert (blastp_hit ∈ hits blastp_region) as Hhit by constructor.
  split; [exact Hparse|]. split; [exact Hregion|]. split; [exact Hhit|].
  exact (parse_blast_scales_slen report_blastp "BlastP" [blastp_region]
           blastp_region blastp_hit Hparse Hregion Hhit).
Defined.


Lemma check_adjacent_regions_terminates_witness :
  let st := initial_state [region_A; region_B; region_C; region_D] StatisticsDict in
  i st < length (sorted_lori st) - 1 ∧
  loop_body remove_dups shared_hits_default st = Ok (move_on [] st) ∧
  ((length (sorted_lori (move_on [] st)) < length (sorted_lori st) ∧
    (i st - 1 ≤ i (move_on [] st))%nat ∧ (i (move_on [] st) ≤ i st)%nat)
   ∨ (sorted_lori (move_on [] st) = sorted_lori st ∧ i (move_on [] st) = i st + 1)).
Proof.
  intros st.
  assert (i st < length (sorted_lori st) - 1) as Hguard by (vm_compute; lia).
  assert (loop_body remove_dups shared_hits_default st = Ok (move_on [] st)) as Hbody
    by (vm_compute; reflexivity).
  split; [exact Hguard|]. split; [exact Hbody|].
  exact (proj2 (check_adjacent_regions_terminates remove_dups shared_hits_default
                  [region_A; region_B; region_C; region_D] StatisticsDict)
           st (move_on [] st) Hguard Hbody).
Defined.

Lemma check_adjacent_regions_last_region_witness :
  Forall (λ x, (start_val x < start_val region_D)%Z) ([region_S1; region_C] ++ []) ∧
  ∃ individual merged sd',
    check_adjacent_regions remove_dups ([region_S1; region_C] ++ region_D :: [])
                           shared_hits_default StatisticsDict =
      Some (Ok (individual, merged, sd')) ∧
    Forall (λ p, (start_val p < start_val region_D)%Z) individual ∧
    (region_D ∉ individual).
Proof.
  assert (Forall (λ x, (start_val x < start_val region_D)%Z) ([region_S1; region_C] ++ []))
    as Hmax by (repeat constructor).
  split; [exact Hmax|].
  destruct (proj1 (check_adjacent_regions_last_region remove_dups shared_hits_default
                     [region_S1; region_C] region_D [] StatisticsDict Hmax))
    as (individual & merged & sd' & Hrun & Hbelow & Hnot & _).
  exists individual, merged, sd'. repeat split; assumption.
Defined.

(** * Further properties of the code *)

(** ** Bounds and monotonicity of the comparison of two regions *)

Lemma true_div_le_1 n d : 0 < d → (n ≤ d)%nat → (true_div n d ≤ 1)%Qc.
Proof.
  intros Hd Hn. unfold true_div.
  assert (0 < Qc_of_Z (Z.of_nat d))%Qc as Hpos
    by (rewrite <- Z2Qc_inj_0; apply (proj1 (Z2Qc_inj_lt 0 (Z.of_nat d))); lia).
  apply (Qcmult_le_mono_pos_r _ _ (Qc_of_Z (Z.of_nat d))); [done|].
  rewrite test_field, Qcmult_1_l.
  - apply (proj1 (Z2Qc_inj_le (Z.of_nat n) (Z.of_nat d))). lia.
  - intros H. rewrite H in Hpos. by apply Qclt_not_eq in Hpos.
Qed.

Lemma size_list_to_set_le (l : list string) :
  (size (list_to_set l : gset string) ≤ length l)%nat.
Proof.
  induction l as [|x l IH].
  - by rewrite list_to_set_nil, size_empty.
  - rewrite list_to_set_cons, size_union_alt, size_singleton. simpl.
    assert ((list_to_set l : gset string) ∖ {[x]} ⊆ list_to_set l) as Hsub
      by (intros y Hy%elem_of_difference; tauto).
    apply subseteq_size in Hsub. lia.
Qed.

Lemma size_accessions_le r : (size (accessions r) ≤ length (hits r))%nat.
Proof.
  unfold accessions. etrans; [apply size_list_to_set_le|]. by rewrite length_fmap.
Qed.

(** X1.  Two regions never share more accessions than the one with fewer hits
    has hits, so the shared fraction is at most 1: with a cutoff above 1
    the hit criterion fails for every pair of regions, and no pair is
    mergeable. *)
Theorem shared_hits_bounded r1 r2 (h : Qc) :
  (number_of_matching_hits r1 r2 ≤ length (hits r1) `min` length (hits r2))%nat ∧
  ((1 < h)%Qc →
   matching_hit_critera r1 r2 h = false ∧ compare_regions r1 r2 h = false).
Proof.
  assert (number_of_matching_hits r1 r2 ≤ length (hits r1) `min` length (hits r2))%nat
    as Hle.
  { unfold number_of_matching_hits.
    pose proof (size_accessions_le r1). pose proof (size_accessions_le r2).
    assert (accessions r1 ∩ accessions r2 ⊆ accessions r1) as Hsub1
      by (intros y Hy%elem_of_intersection; tauto).
    assert (accessions r1 ∩ accessions r2 ⊆ accessions r2) as Hsub2
      by (intros y Hy%elem_of_intersection; tauto).
    apply subseteq_size in Hsub1, Hsub2. lia. }
  split; [exact Hle|]. intros Hh.
  assert (matching_hit_critera r1 r2 h = false) as Hcrit.
  { apply not_true_is_false. rewrite matching_hit_critera_spec.
    intros (H1 & H2 & Hfrac).
    assert (shared_hit_fraction r1 r2 ≤ 1)%Qc as Hone.
    { apply (true_div_le_1 (size (accessions r1 ∩ accessions r2))); [lia|exact Hle]. }
    apply (Qclt_not_le _ _ Hh). by etrans. }
  split; [exact Hcrit|].
  unfold compare_regions. rewrite Hcrit. apply andb_false_iff. left. apply andb_false_r.
Qed.

(** X2.  Lowering the cutoff never separates a pair: two regions that are joined
    at a cutoff are joined at every smaller cutoff. *)
Theorem compare_regions_cutoff_mono r1 r2 (h h' : Qc) :
  (h' ≤ h)%Qc →
  compare_regions r1 r2 h = true →
  compare_regions r1 r2 h' = true.
Proof.
  intros Hle. unfold compare_regions.
  rewrite !andb_true_iff, !matching_hit_critera_spec.
  intros [[Hgap (H1 & H2 & Hfrac)] Hstrand].
  repeat split; try done. by etrans.
Qed.

(** X3.  The comparison does not depend on the order of its two arguments when
    the regions start at different coordinates.  (For two regions with the
    same start, the distance is taken from the end of the first argument.) *)
Theorem compare_regions_symmetric r1 r2 (h : Qc) :
  start_val r1 ≠ start_val r2 →
  compare_regions r1 r2 h = compare_regions r2 r1 h.
Proof.
  intros Hne. apply eq_true_iff_eq. unfold compare_regions.
  rewrite !andb_true_iff, !bool_decide_eq_true, !region_proximity_gap,
    !matching_hit_critera_spec.
  assert (gap r1 r2 = gap r2 r1) as ->.
  { unfold gap. repeat case_bool_decide; lia. }
  assert (shared_hit_fraction r1 r2 = shared_hit_fraction r2 r1) as ->.
  { unfold shared_hit_fraction.
    by rewrite (comm_L (∩) (accessions r2)), (Nat.min_comm (length (hits r2))). }
  split; intros [[? (? & ? & ?)] ?]; repeat split; done.
Qed.

Lemma compare_regions_symmetric_witness :
  start_val region_A ≠ start_val region_D ∧
  compare_regions region_A region_D shared_hits_default =
  compare_regions region_D region_A shared_hits_default.
Proof.
  assert (start_val region_A ≠ start_val region_D) as Hne by (vm_compute; lia).
  split; [exact Hne|].
  exact (compare_regions_symmetric region_A region_D shared_hits_default Hne).
Defined.

Lemma compare_regions_cutoff_mono_witness :
  (Q2Qc (1 # 10) ≤ shared_hits_default)%Qc ∧
  compare_regions region_A region_D shared_hits_default = true ∧
  compare_regions region_A region_D (Q2Qc (1 # 10)) = true.
Proof.
  assert (Q2Qc (1 # 10) ≤ shared_hits_default)%Qc as Hle by (by vm_compute).
  assert (compare_regions region_A region_D shared_hits_default = true) as Hcmp
    by (by vm_compute).
  split; [exact Hle|]. split; [exact Hcmp|].
  exact (compare_regions_cutoff_mono region_A region_D _ _ Hle Hcmp).
Defined.

Lemma shared_hits_bounded_witness :
  (1 < Q2Qc (3 # 2))%Qc ∧
  matching_hit_critera region_A region_D (Q2Qc (3 # 2)) = false ∧
  compare_regions region_A region_D (Q2Qc (3 # 2)) = false.
Proof.
  assert (1 < Q2Qc (3 # 2))%Qc as Hh by (by vm_compute).
  split; [exact Hh|].
  exact (proj2 (shared_hits_bounded region_A region_D (Q2Qc (3 # 2))) Hh).
Defined.

(** ** What the merge engine returns *)


Lemma supersede_length pseudo L : (length (supersede pseudo L) ≤ length L + 1)%nat.
Proof.
  unfold supersede. rewrite length_app. simpl.
  pose proof (length_filter (λ item, py_is_not (start item) (start pseudo)) L). lia.
Qed.

Lemma supersede_elem pseudo L p : p ∈ supersede pseudo L → p = pseudo ∨ p ∈ L.
Proof.
  unfold supersede. intros [Hp%list_elem_of_filter|Hp%list_elem_of_singleton]%elem_of_app.
  - right. apply Hp.
  - by left.
Qed.


Section merge_outputs.
Variable list_of_set : list BlastHit → list BlastHit.
Hypothesis list_of_set_perm : ∀ l, list_of_set l ≡ₚ remove_dups l.
Variable cutoff : Qc.

(** An iteration fuses two regions of the working list that compare as
    similar, or records the region at the index, or only moves on. *)
Lemma loop_body_shape st st' :
  i st < length (sorted_lori st) - 1 →
  loop_body list_of_set cutoff st = Ok st' →
  (∃ r_i r_j rest consumed,
     r_i ∈ sorted_lori st ∧ r_j ∈ sorted_lori st ∧
     compare_regions r_i r_j cutoff = true ∧
     rest ⊆ sorted_lori st ∧
     (length rest + 2 ≤ length (sorted_lori st))%nat ∧
     st' = new_pseudo_made (join_regions list_of_set r_i r_j) rest
             (count_fragmented consumed (stats st)) st)
  ∨ (∃ r_i, sorted_lori st !! i st = Some r_i ∧ is_individual r_i = true ∧
            st' = move_on (supersede r_i (IndividualList st)) st)
  ∨ (∃ r_i, sorted_lori st !! i st = Some r_i ∧ is_individual r_i = false ∧
            st' = move_on (IndividualList st) st).
Proof.
  intros Hguard Hbody. unfold loop_body in Hbody.
  destruct (lookup_lt_is_Some_2 (sorted_lori st) (i st)) as [r_i Hi]; [lia|].
  destruct (lookup_lt_is_Some_2 (sorted_lori st) (i st + 1)) as [r_i1 Hi1]; [lia|].
  rewrite (item_Some _ _ _ Hi), (item_Some _ _ _ Hi1) in Hbody. simpl in Hbody.
  pose proof (@delete_subseteq RegionInfo) as Hdel.
  assert (∀ st0, (if is_individual r_i
                  then Ok (move_on (supersede r_i (IndividualList st)) st)
                  else Ok (move_on (IndividualList st) st)) = Ok st0 →
                 (∃ r, sorted_lori st !! i st = Some r ∧ is_individual r = true ∧
                       st0 = move_on (supersede r (IndividualList st)) st)
                 ∨ (∃ r, sorted_lori st !! i st = Some r ∧ is_individual r = false ∧
                         st0 = move_on (IndividualList st) st)) as Hrec.
  { intros st0. destruct (is_individual r_i) eqn:Hind; intros [= <-]; eauto. }
  destruct (compare_regions r_i r_i1 cutoff) eqn:Hcmp.
  { injection Hbody as <-. left.
    exists r_i, r_i1, (delete (i st) (delete (i st + 1) (sorted_lori st))), [r_i; r_i1].
    split; [by eapply list_elem_of_lookup_2|]. split; [by eapply list_elem_of_lookup_2|].
    split; [done|]. split; [etrans; apply Hdel|]. split; [|done].
    rewrite !length_delete; [lia|done|by rewrite list_lookup_delete_lt by lia]. }
  case_bool_decide; [|right; by apply Hrec].
  destruct (lookup_lt_is_Some_2 (sorted_lori st) (i st + 2)) as [r_i2 Hi2]; [lia|].
  rewrite (item_Some _ _ _ Hi2) in Hbody. simpl in Hbody.
  destruct (compare_regions r_i r_i2 cutoff) eqn:Hcmp2; [|right; by apply Hrec].
  injection Hbody as <-. left.
  exists r_i, r_i2, (delete (i st) (delete (i st + 1) (delete (i st + 2) (sorted_lori st)))),
    [r_i; r_i1; r_i2].
  split; [by eapply list_elem_of_lookup_2|]. split; [by eapply list_elem_of_lookup_2|].
  split; [done|]. split; [etrans; [apply Hdel|]; etrans; apply Hdel|]. split; [|done].
  rewrite !length_delete; [lia|done| |]; by rewrite !list_lookup_delete_lt by lia.
Qed.

Lemma join_regions_spans lori r1 r2 :
  spans lori r1 → spans lori r2 → spans lori (join_regions list_of_set r1 r2).
Proof.
  intros [(a1 & a2 & Ha1 & Ha2 & Hs1 & Hc1 & Hd1 & He1) Hh1]
         [(b1 & b2 & Hb1 & Hb2 & Hs2 & Hc2 & Hd2 & He2) Hh2].
  split.
  - exists a1, b2. simpl. repeat split; done.
  - simpl. intros h. unfold sort_hits_by_eval.
    rewrite sorted_Permutation, list_of_set_perm, elem_of_remove_dups, elem_of_app.
    intros [?|?]; eauto.
Qed.

(** X4.  Every region of [IndividualList] is one of the regions given, unchanged,
    and carries the note of an individual pseudogene.  Every region of
    [MergedList] carries the placeholder query and the fragmentation note,
    spans from the start of a region given to the end of a region given, on
    the contig and strand of the former, and holds only hits of the regions
    given.  No region is on both lists. *)
Theorem check_adjacent_regions_outputs lori sd individual merged sd' :
  check_adjacent_regions list_of_set lori cutoff sd = Some (Ok (individual, merged, sd')) →
  (∀ p, p ∈ individual → p ∈ lori ∧ is_individual p = true) ∧
  (∀ p, p ∈ merged →
        query p = "locus_tag=pseudo_uniqueID" ∧
        note p = "Note=pseudogene candidate. Reason: Predicted fragmentation of a single gene.;colour=229 204 255" ∧
        spans lori p) ∧
  (∀ p, p ∈ individual → p ∉ merged).
Proof.
  intros Hrun.
  destruct (while_loop_invariant list_of_set cutoff
              (λ st, Forall (λ r, spans lori r ∧ (r ∈ lori ∨ note r = fragmentation_note))
                       (sorted_lori st) ∧
                     Forall (λ p, p ∈ lori ∧ is_individual p = true) (IndividualList st) ∧
                     Forall (λ p, query p = "locus_tag=pseudo_uniqueID" ∧
                                  note p = fragmentation_note ∧ spans lori p)
                       (MergedList st)))
    with (fuel := 2 * length lori) (st := initial_state lori sd)
    as (st' & Hrun' & (_ & Hind & Hmer) & _).
  - intros st st' Hguard (Hl & HI & HM) Hbody.
    rewrite Forall_forall in Hl.
    destruct (loop_body_shape st st' Hguard Hbody)
      as [(r_i & r_j & rest & consumed & Hri & Hrj & _ & Hrest & _ & ->)
         |[(r_i & Hi & Hflag & ->)|(r_i & _ & _ & ->)]]; simpl.
    + assert (spans lori (join_regions list_of_set r_i r_j)) as Hspan.
      { apply join_regions_spans; [apply (Hl _ Hri)|apply (Hl _ Hrj)]. }
      split; [|split; [done|]].
      * rewrite sorted_Permutation. apply Forall_app. split.
        -- apply Forall_forall. intros r Hr. by apply Hl, Hrest.
        -- constructor; [|constructor]. split; [done|by right].
      * unfold supersede. apply Forall_app. split.
        -- rewrite Forall_forall in HM. apply Forall_forall.
           intros p Hp%list_elem_of_filter. apply HM, Hp.
        -- constructor; [|constructor]. split; [done|]. split; [done|exact Hspan].
    + split; [by apply Forall_forall|]. split; [|done].
      unfold supersede. apply Forall_app. split.
      * rewrite Forall_forall in HI. apply Forall_forall.
        intros p Hp%list_elem_of_filter. apply HI, Hp.
      * constructor; [|constructor]. split; [|done].
        destruct (Hl r_i (list_elem_of_lookup_2 _ _ _ Hi)) as [_ [Hin|Hnote]]; [done|].
        unfold is_individual in Hflag. rewrite Hnote in Hflag. by vm_compute in Hflag.
    + split; [by apply Forall_forall|done].
  - simpl. rewrite sorted_length. lia.
  - simpl. split; [|by split; constructor].
    rewrite sorted_Permutation. apply Forall_forall. intros r Hr.
    split; [|by left]. split; [exists r, r; by repeat split|eauto].
  - unfold check_adjacent_regions in Hrun. rewrite Hrun' in Hrun.
    injection Hrun as <- <- _.
    rewrite Forall_forall in Hind. rewrite Forall_forall in Hmer.
    split; [exact Hind|]. split; [exact Hmer|].
    intros p Hp Hp'. destruct (Hind p Hp) as [_ Hflag]. destruct (Hmer p Hp') as (_ & Hnote & _).
    unfold is_individual in Hflag. rewrite Hnote in Hflag. by vm_compute in Hflag.
Qed.
End merge_outputs.

Lemma py_is_refl a : py_is a a = true.
Proof.
  unfold py_is. rewrite Z.eqb_refl, Pos.eqb_refl. simpl. apply orb_true_r.
Qed.

Lemma supersede_NoDup_regions pseudo L : NoDup L → NoDup (supersede pseudo L).
Proof.
  intros HL. unfold supersede. apply NoDup_app. split; [|split].
  - by apply NoDup_filter.
  - intros p [Hnot _]%list_elem_of_filter ->%list_elem_of_singleton.
    unfold py_is_not in Hnot. by rewrite py_is_refl in Hnot.
  - apply NoDup_singleton.
Qed.

Section merge_counts.
Variable list_of_set : list BlastHit → list BlastHit.
Variable cutoff : Qc.

Lemma check_adjacent_regions_sizes lori sd individual merged sd' :
  check_adjacent_regions list_of_set lori cutoff sd = Some (Ok (individual, merged, sd')) →
  (length merged ≤ length lori - 1)%nat ∧
  NoDup individual ∧
  (length individual ≤ length lori)%nat ∧
  NumberOfContigs sd' = NumberOfContigs sd ∧
  ProteomeOrfs sd' = ProteomeOrfs sd ∧
  (FragmentedOrfs sd ≤ FragmentedOrfs sd')%nat ∧
  PseudogenesShort sd' = PseudogenesShort sd + length individual ∧
  PseudogenesFragmented sd' = PseudogenesFragmented sd + length merged ∧
  PseudogenesTotal sd' = PseudogenesTotal sd + (length individual + length merged).
Proof.
  intros Hrun.
  destruct (while_loop_invariant list_of_set cutoff
              (λ st, (length (sorted_lori st) + length (MergedList st) ≤ length lori)%nat ∧
                     (1 ≤ length lori → 1 ≤ length (sorted_lori st))%nat ∧
                     Forall (λ r, r ∈ lori ∨ note r = fragmentation_note) (sorted_lori st) ∧
                     NoDup (IndividualList st) ∧
                     IndividualList st ⊆ lori ∧
                     NumberOfContigs (stats st) = NumberOfContigs sd ∧
                     ProteomeOrfs (stats st) = ProteomeOrfs sd ∧
                     (FragmentedOrfs sd ≤ FragmentedOrfs (stats st))%nat ∧
                     PseudogenesShort (stats st) = PseudogenesShort sd ∧
                     PseudogenesFragmented (stats st) = PseudogenesFragmented sd ∧
                     PseudogenesTotal (stats st) = PseudogenesTotal sd))
    with (fuel := 2 * length lori) (st := initial_state lori sd)
    as (st' & Hrun' & (Hlen & Hpos & _ & Hnd & Hsub & Hc & Ho & Hf & Hs & Hg & Ht) & _).
  - intros st st' Hguard (Hlen & Hpos & Hwl & Hnd & Hsub & Hc & Ho & Hf & Hs & Hg & Ht) Hbody.
    rewrite Forall_forall in Hwl.
    destruct (loop_body_shape list_of_set cutoff st st' Hguard Hbody)
      as [(r_i & r_j & rest & consumed & Hri & Hrj & _ & Hrest & Hshort & ->)
         |[(r_i & Hi & Hflag & ->)|(r_i & _ & _ & ->)]]; simpl.
    + rewrite sorted_length, length_app. simpl.
      pose proof (supersede_length (join_regions list_of_set r_i r_j) (MergedList st)).
      split; [lia|]. split; [lia|]. split; [|repeat split; try done; lia].
      rewrite sorted_Permutation. apply Forall_app. split.
      * apply Forall_forall. intros r Hr. by apply Hwl, Hrest.
      * constructor; [by right|constructor].
    + split; [done|]. split; [done|]. split; [by apply Forall_forall|].
      split; [by apply supersede_NoDup_regions|]. split; [|done].
      intros p [->|Hp]%supersede_elem; [|by apply Hsub].
      destruct (Hwl r_i (list_elem_of_lookup_2 _ _ _ Hi)) as [Hin|Hnote]; [done|].
      unfold is_individual in Hflag. rewrite Hnote in Hflag. by vm_compute in Hflag.
    + repeat split; try done. by apply Forall_forall.
  - simpl. rewrite sorted_length. lia.
  - simpl. rewrite sorted_length. split; [lia|]. split; [lia|].
    split; [|split; [constructor|split; [|done]]].
    + rewrite sorted_Permutation. apply Forall_forall. by left.
    + intros r Hr. by apply elem_of_nil in Hr.
  - unfold check_adjacent_regions in Hrun. rewrite Hrun' in Hrun.
    injection Hrun as <- <- <-. simpl.
    split; [lia|]. split; [done|]. split; [|repeat split; try done; lia].
    apply submseteq_length, NoDup_submseteq; done.
Qed.
(** X5.  The sizes of what [check_adjacent_regions] returns, and the counters it
    moves.  There are fewer fused candidates than regions given, and no more
    standalone candidates than regions given, each once.  The counters of
    contigs and of ORFs stay; the counter of fragmented ORFs does not
    decrease; the counters of short and of fragmented pseudogenes grow by
    the lengths of the two lists, and the total by their sum. *)
Theorem check_adjacent_regions_counts lori sd individual merged sd' :
  check_adjacent_regions list_of_set lori cutoff sd = Some (Ok (individual, merged, sd')) →
  (length merged ≤ length lori - 1)%nat ∧
  NoDup individual ∧
  (length individual ≤ length lori)%nat ∧
  NumberOfContigs sd' = NumberOfContigs sd ∧
  ProteomeOrfs sd' = ProteomeOrfs sd ∧
  (FragmentedOrfs sd ≤ FragmentedOrfs sd')%nat ∧
  PseudogenesShort sd' = PseudogenesShort sd + length individual ∧
  PseudogenesFragmented sd' = PseudogenesFragmented sd + length merged ∧
  PseudogenesTotal sd' = PseudogenesTotal sd + (length individual + length merged).
Proof. apply check_adjacent_regions_sizes. Qed.

(** [check_adjacent_regions] always returns. *)
Lemma check_adjacent_regions_returns lori sd :
  ∃ individual merged sd',
    check_adjacent_regions list_of_set lori cutoff sd = Some (Ok (individual, merged, sd')).
Proof.
  destruct (while_loop_invariant list_of_set cutoff (λ _, True))
    with (fuel := 2 * length lori) (st := initial_state lori sd)
    as (st' & Hrun & _); [done| |done|].
  - simpl. rewrite sorted_length. lia.
  - unfold check_adjacent_regions. rewrite Hrun. eauto.
Qed.
End merge_counts.

Section nothing_to_merge.
Variable list_of_set : list BlastHit → list BlastHit.
Variable cutoff : Qc.

End nothing_to_merge.


Lemma check_adjacent_regions_outputs_witness :
  (∀ l : list BlastHit, remove_dups l ≡ₚ remove_dups l) ∧
  ∃ individual merged sd',
    check_adjacent_regions remove_dups [region_A; region_B; region_C; region_D]
                           shared_hits_default StatisticsDict =
      Some (Ok (individual, merged, sd')) ∧
    (∀ p, p ∈ merged → spans [region_A; region_B; region_C; region_D] p).
Proof.
  assert (∀ l : list BlastHit, remove_dups l ≡ₚ remove_dups l) as Hperm by reflexivity.
  split; [exact Hperm|].
  assert (∃ individual merged sd',
            check_adjacent_regions remove_dups [region_A; region_B; region_C; region_D]
                                   shared_hits_default StatisticsDict =
              Some (Ok (individual, merged, sd')))
    as (individual & merged & sd' & Hrun)
    by (eexists _, _, _; vm_compute; reflexivity).
  exists individual, merged, sd'. split; [exact Hrun|].
  intros p Hp.
  apply (check_adjacent_regions_outputs remove_dups Hperm shared_hits_default
           _ _ _ _ _ Hrun), Hp.
Defined.

Lemma check_adjacent_regions_counts_witness :
  ∃ individual merged sd',
    check_adjacent_regions remove_dups [region_A; region_B; region_C; region_D]
                           shared_hits_default StatisticsDict =
      Some (Ok (individual, merged, sd')) ∧
    (length merged ≤ length [region_A; region_B; region_C; region_D] - 1)%nat.
Proof.
  assert (∃ individual merged sd',
            check_adjacent_regions remove_dups [region_A; region_B; region_C; region_D]
                                   shared_hits_default StatisticsDict =
              Some (Ok (individual, merged, sd')))
    as (individual & merged & sd' & Hrun)
    by (eexists _, _, _; vm_compute; reflexivity).
  exists individual, merged, sd'. split; [exact Hrun|].
  apply (check_adjacent_regions_counts remove_dups shared_hits_default _ _ _ _ _ Hrun).
Defined.

(** ** Errors and monotonicity of the individual-ORF classifier *)

Lemma flag_short_raises InitialList length_cutoff e :
  flag_short InitialList length_cutoff = Raise e →
  e = ZeroDivisionError ∧ ∃ r, r ∈ InitialList ∧ AverageDatabaseLength r = 0%Qc.
Proof.
  induction InitialList as [|r l IH]; simpl; [done|].
  case_bool_decide as Havg.
  - intros [= <-]. split; [done|]. exists r. split; [by constructor|done].
  - destruct (flag_short l length_cutoff) as [lopg|e'] eqn:Hrest; simpl.
    + by case_bool_decide.
    + intros [= <-]. destruct (IH eq_refl) as (-> & r' & Hr' & Hzero).
      split; [done|]. exists r'. split; [by constructor|done].
Qed.

Lemma flag_short_nonzero InitialList length_cutoff lopg :
  flag_short InitialList length_cutoff = Ok lopg →
  Forall (λ r, AverageDatabaseLength r ≠ 0%Qc) InitialList.
Proof.
  revert lopg. induction InitialList as [|r l IH]; simpl; intros lopg; [constructor|].
  case_bool_decide as Havg; [done|].
  destruct (flag_short l length_cutoff) as [lopg'|e'] eqn:Hrest; simpl; [|done].
  intros _. constructor; [done|]. by eapply IH.
Qed.

(** X7.  [check_individual_ORFs] raises exactly when a region with more than two
    hits has target lengths that sum to zero, and what it raises then is
    [ZeroDivisionError]. *)
Theorem check_individual_ORFs_raises lori (c : Qc) :
  (check_individual_ORFs lori c = Raise ZeroDivisionError ↔
   ∃ r, r ∈ lori ∧ 2 < length (hits r) ∧ sum_list (slen <$> hits r) = 0%Z) ∧
  (∀ e, check_individual_ORFs lori c = Raise e → e = ZeroDivisionError).
Proof.
  unfold check_individual_ORFs. split; [split|].
  - intros (_ & r & [Hlen Hr]%list_elem_of_filter & Hzero)%flag_short_raises.
    exists r. split; [done|]. split; [done|].
    by apply AverageDatabaseLength_zero in Hzero; [|lia].
  - intros (r & Hr & Hlen & Hzero).
    destruct (flag_short _ c) as [lopg|e] eqn:Hrun.
    + apply flag_short_nonzero in Hrun. rewrite Forall_forall in Hrun.
      exfalso. apply (Hrun r); [by apply list_elem_of_filter|].
      apply AverageDatabaseLength_zero; [lia|done].
    + by apply flag_short_raises in Hrun as [-> _].
  - intros e He. by apply flag_short_raises in He as [-> _].
Qed.

(** X8.  Raising the cutoff only adds pseudogenes: what is flagged at a cutoff is
    flagged, in the same order, at every greater cutoff. *)
Theorem check_individual_ORFs_cutoff_mono lori (c c' : Qc) lopg :
  (c ≤ c')%Qc →
  check_individual_ORFs lori c = Ok lopg →
  ∃ lopg', check_individual_ORFs lori c' = Ok lopg' ∧ lopg `sublist_of` lopg'.
Proof.
  unfold check_individual_ORFs. intros Hle Hrun.
  pose proof (flag_short_nonzero _ _ _ Hrun) as Hdef.
  rewrite flag_short_ok in Hrun by done. injection Hrun as <-.
  eexists. split; [by apply flag_short_ok|].
  apply fmap_sublist.
  induction (filter (λ region, 2 < length (hits region)) lori) as [|r l IH]; [done|].
  apply Forall_cons in Hdef as [_ Hdef].
  rewrite !filter_cons.
  destruct (decide (Ratio r < c)%Qc) as [Hr|Hr].
  - rewrite decide_True by (by eapply Qclt_le_trans). constructor. by apply IH.
  - destruct (decide (Ratio r < c')%Qc); [constructor|]; by apply IH.
Qed.

Lemma check_individual_ORFs_cutoff_mono_witness :
  (length_pseudo_default ≤ Q2Qc (9 # 10))%Qc ∧
  ∃ lopg lopg',
    check_individual_ORFs [region_short; region_A] length_pseudo_default = Ok lopg ∧
    check_individual_ORFs [region_short; region_A] (Q2Qc (9 # 10)) = Ok lopg' ∧
    lopg `sublist_of` lopg'.
Proof.
  assert (length_pseudo_default ≤ Q2Qc (9 # 10))%Qc as Hle by (by vm_compute).
  split; [exact Hle|].
  assert (∃ lopg, check_individual_ORFs [region_short; region_A] length_pseudo_default
                  = Ok lopg) as [lopg Hrun] by (eexists; vm_compute; reflexivity).
  destruct (check_individual_ORFs_cutoff_mono _ _ _ _ Hle Hrun) as (lopg' & Hrun' & Hsub).
  exists lopg, lopg'. repeat split; assumption.
Defined.

Lemma check_individual_ORFs_raises_witness :
  let r := mkRegionInfo "c1" "Z" (PyInt 1 1) 100 "+"
             [mkBlastHit "a" 0 1 2 0%Qc; mkBlastHit "b" 0 1 2 0%Qc; mkBlastHit "c" 0 1 2 0%Qc]
             "" in
  check_individual_ORFs [r] length_pseudo_default = Raise ZeroDivisionError.
Proof.
  intros r.
  apply (proj1 (check_individual_ORFs_raises [r] length_pseudo_default)).
  exists r. split; [constructor|]. split; [simpl; lia|reflexivity].
Defined.

(** ** Replacing flagged genes *)

Lemma pseudo_present_spec gene pseudos :
  (pseudo_present gene pseudos = (false, gene) ∧
   Forall (λ p, start_val p ≠ start_val gene) pseudos)
  ∨ (∃ before pseudo after,
       pseudos = before ++ pseudo :: after ∧
       pseudo_present gene pseudos = (true, pseudo) ∧
       start_val pseudo = start_val gene ∧
       Forall (λ p, start_val p ≠ start_val gene) before).
Proof.
  induction pseudos as [|p l IH]; simpl.
  - left. by split.
  - case_bool_decide as Hp.
    + right. exists [], p, l. repeat split; [done|constructor].
    + destruct IH as [[-> Hall]|(before & pseudo & after & -> & -> & Hs & Hall)].
      * left. split; [done|]. by constructor.
      * right. exists (p :: before), pseudo, after. repeat split; [done|]. by constructor.
Qed.

(** X9.  [replace_pseudos_in_list] keeps the length and the order of the genes
    and the start coordinate at every position: a gene at whose start no
    pseudogene starts is kept as it is, any other gene is replaced by the
    first pseudogene of the list that starts where it starts. *)
Theorem replace_pseudos_in_list_positions pseudos genes :
  Forall2 (λ gene out,
             start_val out = start_val gene ∧
             ((out = gene ∧ Forall (λ p, start_val p ≠ start_val gene) pseudos)
              ∨ (∃ before after,
                   pseudos = before ++ out :: after ∧
                   Forall (λ p, start_val p ≠ start_val gene) before)))
          genes (replace_pseudos_in_list pseudos genes).
Proof.
  unfold replace_pseudos_in_list. apply Forall2_fmap_r, Forall_Forall2_diag, Forall_forall.
  intros gene _. unfold compose.
  destruct (pseudo_present_spec gene pseudos)
    as [[-> Hall]|(before & pseudo & after & Heq & -> & Hs & Hall)]; simpl.
  - split; [done|]. by left.
  - split; [done|]. right. by exists before, after.
Qed.



(** ** Locus tags *)

Lemma append_cons a s t : String a s +:+ t = String a (s +:+ t).
Proof. reflexivity. Qed.

Lemma length_append s t : String.length (s +:+ t) = String.length s + String.length t.
Proof.
  induction s as [|a s IH]; [reflexivity|]. rewrite append_cons. simpl. by rewrite IH.
Qed.

Lemma length_zeros k : String.length (zeros k) = k.
Proof. induction k as [|k IH]; simpl; [done|by rewrite IH]. Qed.

Lemma uint_of_string_zeros k s :
  NilEmpty.uint_of_string (zeros k +:+ s) =
  Nat.iter k Decimal.D0 <$> NilEmpty.uint_of_string s.
Proof.
  induction k as [|k IH].
  - change (zeros 0 +:+ s) with s. by destruct (NilEmpty.uint_of_string s).
  - change (zeros (S k)) with (String "0" (zeros k)).
    rewrite append_cons. simpl. rewrite IH.
    by destruct (NilEmpty.uint_of_string s).
Qed.

Lemma to_uint_nonnil n : Nat.to_uint n ≠ Decimal.Nil.
Proof.
  rewrite <- (Unsigned.of_to n) at 1. rewrite Unsigned.to_of.
  apply DecimalFacts.unorm_nonnil.
Qed.

(** X11.  The tag of a number reads back as that number, so that different
    numbers get different tags; it has four characters or more, and four
    for every number below 10000. *)
Theorem format_04d_reads_back n :
  decimal_value (format_04d n) = Some n ∧
  (4 ≤ String.length (format_04d n))%nat ∧
  ((Z.of_nat n < 10000)%Z → String.length (format_04d n) = 4).
Proof.
  split; [|split].
  - unfold decimal_value, format_04d.
    assert (NilZero.string_of_uint (Nat.to_uint n) =
            NilEmpty.string_of_uint (Nat.to_uint n)) as ->.
    { pose proof (to_uint_nonnil n). by destruct (Nat.to_uint n). }
    rewrite uint_of_string_zeros, NilEmpty.usu. simpl. f_equal.
    rewrite <- Unsigned.of_uint_norm, DecimalFacts.unorm_iter_D0,
      Unsigned.of_uint_norm. apply Unsigned.of_to.
  - unfold format_04d. rewrite length_append, length_zeros. lia.
  - intros Hn.
    assert (forallb (λ m, String.length (format_04d m) =? 4)%nat
                    (seq 0 (Z.to_nat 10000)) = true)
      as Hall by (vm_compute; reflexivity).
    rewrite forallb_forall in Hall.
    apply Nat.eqb_eq, Hall, in_seq. lia.
Qed.

Lemma format_04d_reads_back_witness :
  (Z.of_nat 12 < 10000)%Z ∧ String.length (format_04d 12) = 4 ∧
  decimal_value (format_04d 12) = Some 12.
Proof.
  assert (Z.of_nat 12 < 10000)%Z as Hn by lia.
  split; [exact Hn|]. split.
  - exact (proj2 (proj2 (format_04d_reads_back 12)) Hn).
  - exact (proj1 (format_04d_reads_back 12)).
Defined.

Lemma StronglySorted_imap {A B} (R : A → A → Prop) (R' : B → B → Prop)
    (f : nat → A → B) l :
  (∀ k k' a b, R a b → R' (f k a) (f k' b)) →
  StronglySorted R l → StronglySorted R' (imap f l).
Proof.
  intros Hf Hl. revert f Hf. induction Hl as [|x l Hl IH Hx]; intros f Hf; simpl.
  - constructor.
  - constructor; [apply IH; intros; by apply Hf|].
    apply Forall_forall. intros y [k [b [-> Hb]]]%elem_of_lookup_imap_1.
    apply Hf. rewrite Forall_forall in Hx. by eapply Hx, list_elem_of_lookup_2.
Qed.

(** X12.  [add_locus_tags] returns the regions in ascending order of start, one
    for each region given; the region at position [k] (from 0) is the
    region at that position of the list sorted by start, with
    [;locus_tag=<contig>_<k+1>] added to its note and nothing else
    changed. *)
Theorem add_locus_tags_numbered lori contig_name :
  length (add_locus_tags lori contig_name) = length lori ∧
  StronglySorted (λ a b, (start_val a ≤ start_val b)%Z) (add_locus_tags lori contig_name) ∧
  ∀ k tagged,
    add_locus_tags lori contig_name !! k = Some tagged →
    ∃ region,
      sorted Z.leb start_val lori !! k = Some region ∧
      region ∈ lori ∧
      contig tagged = contig region ∧ query tagged = query region ∧
      start tagged = start region ∧ end_ tagged = end_ region ∧
      strand tagged = strand region ∧ hits tagged = hits region ∧
      note tagged = note region +:+ ";locus_tag=" +:+ contig_name +:+ "_" +:+
                    format_04d (k + 1).
Proof.
  unfold add_locus_tags. split; [by rewrite length_imap, sorted_length|]. split.
  - eapply StronglySorted_imap;
      [|apply (sorted_StronglySorted Z.leb start_val Z_leb_total Z_leb_trans)].
    intros k k' a b Hab. unfold start_val in *. simpl. lia.
  - intros k tagged Hk. rewrite list_lookup_imap in Hk.
    destruct (sorted Z.leb start_val lori !! k) as [region|] eqn:Hregion; [|done].
    injection Hk as <-. exists region. split; [done|]. split; [|done].
    rewrite <- (sorted_Permutation Z.leb start_val lori).
    by eapply list_elem_of_lookup_2.
Qed.

Lemma add_locus_tags_numbered_witness :
  ∃ tagged,
    add_locus_tags [region_D; region_A] "c1" !! 1 = Some tagged ∧
    start tagged = start region_D ∧
    note tagged = note region_D +:+ ";locus_tag=" +:+ "c1" +:+ "_" +:+ format_04d (1 + 1).
Proof.
  exists (mkRegionInfo "c1" "D" (PyInt 700 4) 790 "+" (hits region_D) ";locus_tag=c1_0002").
  assert (add_locus_tags [region_D; region_A] "c1" !! 1 =
          Some (mkRegionInfo "c1" "D" (PyInt 700 4) 790 "+" (hits region_D)
                  ";locus_tag=c1_0002")) as Hk by reflexivity.
  split; [exact Hk|].
  destruct (proj2 (proj2 (add_locus_tags_numbered [region_D; region_A] "c1")) _ _ Hk)
    as (region & Hregion & _ & _ & _ & Hstart & _ & _ & _ & Hnote).
  injection Hregion as <-. split; [exact Hstart|exact Hnote].
Defined.

(** ** The candidates of one contig *)

Lemma final_statistics_initial r sd :
  final_statistics (initial_state [r] sd) = sd.
Proof.
  destruct sd. unfold final_statistics. simpl. f_equal; lia.
Qed.

Section annotate_pseudos_facts.
Variable list_of_set : list BlastHit → list BlastHit.
Variables hits_cutoff length_cutoff : Qc.

(** X13.  [annotate_pseudos] always returns.  It raises, [ZeroDivisionError],
    exactly as the classifier does; otherwise it returns the candidates of
    the contig in ascending order of start, the note of the candidate at
    position [k] ending in [;locus_tag=<contig name>_<k+1>], and the
    counter of pseudogenes has grown by the number of candidates
    returned. *)
Theorem annotate_pseudos_returns contig sd :
  (∃ candidates sd',
     annotate_pseudos list_of_set contig hits_cutoff length_cutoff sd =
       Some (Ok (candidates, sd')) ∧
     PseudogenesTotal sd' = PseudogenesTotal sd + length candidates ∧
     StronglySorted (λ a b, (start_val a ≤ start_val b)%Z) candidates ∧
     ∀ k tagged, candidates !! k = Some tagged →
                 ∃ before, note tagged = before +:+ ";locus_tag=" +:+ name contig +:+ "_" +:+
                                         format_04d (k + 1))
  ∨ (annotate_pseudos list_of_set contig hits_cutoff length_cutoff sd =
       Some (Raise ZeroDivisionError) ∧
     ∃ r, r ∈ regions contig ∧ 2 < length (hits r) ∧ sum_list (slen <$> hits r) = 0%Z).
Proof.
  unfold annotate_pseudos.
  destruct (check_individual_ORFs (regions contig) length_cutoff) as [lopg|e] eqn:Hclass.
  - left.
    destruct (check_adjacent_regions_returns list_of_set hits_cutoff
                (replace_pseudos_in_list lopg (regions contig)) sd)
      as (individual & merged & sd' & Hrun).
    rewrite Hrun. eexists _, _. split; [done|].
    apply check_adjacent_regions_sizes in Hrun as (_ & _ & _ & _ & _ & _ & _ & _ & Htotal).
    unfold add_locus_tags. split; [|split].
    + by rewrite length_imap, sorted_length, length_app.
    + eapply StronglySorted_imap;
        [|apply (sorted_StronglySorted Z.leb start_val Z_leb_total Z_leb_trans)].
      intros k k' a b Hab. unfold start_val in *. simpl. lia.
    + intros k tagged Hk. rewrite list_lookup_imap in Hk.
      destruct (sorted Z.leb start_val (individual ++ merged) !! k) as [region|]; [|done].
      injection Hk as <-. by exists (note region).
  - right. unfold check_individual_ORFs in Hclass.
    apply flag_short_raises in Hclass
      as (-> & r & [Hlen Hr]%list_elem_of_filter & Hzero).
    split; [done|]. exists r. split; [done|]. split; [done|].
    by apply AverageDatabaseLength_zero in Hzero; [|lia].
Qed.

(** X14.  A contig that holds one region gives no candidate, not even when that
    region is short: the merge engine never looks at the last region of its
    list.  The statistics are left as they were. *)
Theorem annotate_pseudos_single_region r contig_name sd :
  (2 < length (hits r) ∧ sum_list (slen <$> hits r) = 0%Z →
   annotate_pseudos list_of_set (mkContig [r] contig_name) hits_cutoff length_cutoff sd =
     Some (Raise ZeroDivisionError)) ∧
  (¬ (2 < length (hits r) ∧ sum_list (slen <$> hits r) = 0%Z) →
   annotate_pseudos list_of_set (mkContig [r] contig_name) hits_cutoff length_cutoff sd =
     Some (Ok ([], sd))).
Proof.
  unfold annotate_pseudos. simpl.
  destruct (check_individual_ORFs [r] length_cutoff) as [lopg|e] eqn:Hclass.
  - assert (¬ (2 < length (hits r) ∧ sum_list (slen <$> hits r) = 0%Z)) as Hdef.
    { intros [Hlen Hzero]. unfold check_individual_ORFs in Hclass.
      apply flag_short_nonzero in Hclass. rewrite Forall_forall in Hclass.
      apply (Hclass r); [apply list_elem_of_filter; split; [done|constructor]|].
      apply AverageDatabaseLength_zero; [lia|done]. }
    split; [done|]. intros _.
    unfold replace_pseudos_in_list, check_adjacent_regions. simpl.
    by rewrite final_statistics_initial.
  - unfold check_individual_ORFs in Hclass.
    apply flag_short_raises in Hclass
      as (-> & r' & [Hlen ->%list_elem_of_singleton]%list_elem_of_filter & Hzero).
    split; [done|]. intros []. split; [done|].
    by apply AverageDatabaseLength_zero in Hzero; [|lia].
Qed.
End annotate_pseudos_facts.

Lemma annotate_pseudos_single_region_witness :
  ¬ (2 < length (hits region_short) ∧ sum_list (slen <$> hits region_short) = 0%Z) ∧
  check_individual_ORFs [region_short] length_pseudo_default ≠ Ok [] ∧
  annotate_pseudos remove_dups (mkContig [region_short] "c1") shared_hits_default
                   length_pseudo_default StatisticsDict = Some (Ok ([], StatisticsDict)).
Proof.
  assert (¬ (2 < length (hits region_short) ∧ sum_list (slen <$> hits region_short) = 0%Z))
    as Hdef by (intros [_ Hzero]; vm_compute in Hzero; discriminate Hzero).
  split; [exact Hdef|]. split; [by vm_compute|].
  exact (proj2 (annotate_pseudos_single_region remove_dups shared_hits_default
                  length_pseudo_default region_short "c1" StatisticsDict) Hdef).
Defined.

Lemma annotate_pseudos_returns_witness :
  ∃ candidates sd',
    annotate_pseudos remove_dups (mkContig [region_A; region_B; region_C; region_D] "c1")
                     shared_hits_default length_pseudo_default StatisticsDict =
      Some (Ok (candidates, sd')) ∧
    length candidates = 2 ∧
    PseudogenesTotal sd' = PseudogenesTotal StatisticsDict + length candidates.
Proof.
  destruct (annotate_pseudos_returns remove_dups shared_hits_default length_pseudo_default
              (mkContig [region_A; region_B; region_C; region_D] "c1") StatisticsDict)
    as [(candidates & sd' & Hrun & Htotal & _)|[Hraise _]].
  - exists candidates, sd'. split; [exact Hrun|]. split; [|exact Htotal].
    assert (∃ c s, annotate_pseudos remove_dups
                     (mkContig [region_A; region_B; region_C; region_D] "c1")
                     shared_hits_default length_pseudo_default StatisticsDict =
                   Some (Ok (c, s)) ∧ length c = 2) as (c & s & Hc & Hlen)
      by (eexists _, _; split; [vm_compute; reflexivity|reflexivity]).
    rewrite Hrun in Hc. injection Hc as -> _. exact Hlen.
  - exfalso. vm_compute in Hraise. discriminate Hraise.
Defined.

(** ** Contigs *)

Section sorted_fmap.
Context {A B K : Type} (leb : K → K → bool) (key : B → K) (f : A → B).

Lemma insert_by_fmap x l :
  insert_by leb key (f x) (f <$> l) = f <$> insert_by leb (key ∘ f) x l.
Proof.
  induction l as [|y l IH]; csimpl; [done|].
  destruct (leb (key (f x)) (key (f y))); csimpl; [done|]. by rewrite IH.
Qed.

Lemma sorted_fmap l : sorted leb key (f <$> l) = f <$> sorted leb (key ∘ f) l.
Proof.
  unfold sorted. induction l as [|x l IH]; csimpl; [done|].
  by rewrite IH, insert_by_fmap.
Qed.
End sorted_fmap.

Lemma String_leb_total x y : String.leb x y = false → String.leb y x = true.
Proof. intros H. destruct (String.leb_total x y) as [Hxy|Hyx]; congruence. Qed.

Lemma String_leb_trans x y z :
  String.leb x y = true → String.leb y z = true → String.leb x z = true.
Proof.
  intros Hxy Hyz. apply Is_true_true.
  apply (transitivity (R := String.le) (y := y)); by apply Is_true_true.
Qed.

(** The regions of a list, contig by contig, for names that are pairwise
    different: each region is listed once for each name that is its own. *)
Lemma concat_filter_contig (names : list string) (lori : list RegionInfo) :
  NoDup names →
  concat ((λ n, filter (λ ri, contig ri = n) lori) <$> names)
  ≡ₚ filter (λ ri, contig ri ∈ names) lori.
Proof.
  intros Hnd. induction Hnd as [|n names Hn Hnd IH]; simpl.
  - induction lori as [|r l IHl]; [done|].
    rewrite filter_cons_False; [done|]. by intros ?%elem_of_nil.
  - rewrite IH. clear IH. induction lori as [|r l IHl]; [done|].
    rewrite !filter_cons.
    destruct (decide (contig r = n)) as [Heq|Hne].
    + rewrite decide_False by (by rewrite Heq).
      rewrite decide_True by (rewrite Heq; by constructor).
      simpl. by rewrite IHl.
    + destruct (decide (contig r ∈ names)) as [Hin|Hnin].
      * rewrite decide_True by (by constructor).
        rewrite <- Permutation_middle. by rewrite IHl.
      * rewrite decide_False; [done|].
        by intros [?|?]%elem_of_cons.
Qed.

Section contigs.
Variable names_of_set : list string → list string.
Hypothesis names_of_set_perm : ∀ l, names_of_set l ≡ₚ remove_dups l.

(** X15.  [split_regions_into_contigs] makes one contig for each contig name of
    the list, the names being pairwise different; a contig holds the regions
    of its name, at least one, in the order of the list; and the contigs
    together hold every region of the list exactly once. *)
Theorem split_regions_into_contigs_partition lori :
  let contigs := split_regions_into_contigs names_of_set lori in
  NoDup (name <$> contigs) ∧
  (∀ c, c ∈ contigs →
        regions c ≠ [] ∧
        regions c `sublist_of` lori ∧
        ∀ r, r ∈ regions c ↔ r ∈ lori ∧ contig r = name c) ∧
  (∀ r, r ∈ lori → ∃ c, c ∈ contigs ∧ name c = contig r) ∧
  concat (regions <$> contigs) ≡ₚ lori.
Proof.
  unfold split_regions_into_contigs. simpl.
  set (names := names_of_set (contig <$> lori)).
  assert (NoDup names) as Hnd.
  { unfold names. rewrite names_of_set_perm. apply NoDup_remove_dups. }
  assert (∀ n, n ∈ names ↔ ∃ r, r ∈ lori ∧ contig r = n) as Hnames.
  { intros n. unfold names. rewrite names_of_set_perm, elem_of_remove_dups, list_elem_of_fmap.
    split; intros (r & H1 & H2); exists r; by split. }
  split; [|split; [|split]].
  - rewrite <- list_fmap_compose.
    replace (name ∘ _ <$> names) with names; [done|].
    clear. induction names as [|n l IH]; csimpl; [done|]. by f_equal.
  - intros c (n & -> & Hn)%list_elem_of_fmap. simpl. split; [|split].
    + apply Hnames in Hn as (r & Hr & Hc).
      intros Hnil. assert (r ∈ filter (λ ri, contig ri = n) lori) as Hin
        by (by apply list_elem_of_filter).
      rewrite Hnil in Hin. by apply elem_of_nil in Hin.
    + apply sublist_filter.
    + intros r. rewrite list_elem_of_filter. tauto.
  - intros r Hr. eexists. split.
    + apply list_elem_of_fmap. exists (contig r). split; [reflexivity|].
      apply Hnames. eauto.
    + done.
  - rewrite <- list_fmap_compose.
    etrans; [apply (concat_filter_contig names lori Hnd)|].
    assert (Forall (λ ri, contig ri ∈ names) lori) as Hall.
    { apply Forall_forall. intros r Hr. apply Hnames. eauto. }
    clearbody names. clear -Hall. induction Hall as [|r l Hr _ IH]; [done|].
    by rewrite filter_cons_True, IH.
Qed.
End contigs.

Section contigs_sorted.
Variables names_of_set names_of_set' : list string → list string.
Hypothesis names_of_set_perm : ∀ l, names_of_set l ≡ₚ remove_dups l.
Hypothesis names_of_set_perm' : ∀ l, names_of_set' l ≡ₚ remove_dups l.

(** X16.  The list of contigs that [main] works on, [sort_contigs] of
    [split_regions_into_contigs], does not depend on the order in which the
    set of contig names is iterated; it is in ascending order of name and
    holds the contigs that were split off. *)
Theorem sort_contigs_order_free lori :
  sort_contigs (split_regions_into_contigs names_of_set lori) =
  sort_contigs (split_regions_into_contigs names_of_set' lori) ∧
  StronglySorted (λ a b, String.leb (name a) (name b) = true)
    (sort_contigs (split_regions_into_contigs names_of_set lori)) ∧
  sort_contigs (split_regions_into_contigs names_of_set lori)
  ≡ₚ split_regions_into_contigs names_of_set lori.
Proof.
  split; [|split].
  - unfold sort_contigs, split_regions_into_contigs. rewrite !sorted_fmap. f_equal.
    apply (StronglySorted_unique_strong (λ a b, String.leb a b = true)).
    + intros a b _ _. apply String.leb_antisym.
    + apply (sorted_StronglySorted String.leb _ String_leb_total String_leb_trans).
    + apply (sorted_StronglySorted String.leb _ String_leb_total String_leb_trans).
    + by rewrite !sorted_Permutation, names_of_set_perm, names_of_set_perm'.
  - apply (sorted_StronglySorted String.leb name String_leb_total String_leb_trans).
  - apply sorted_Permutation.
Qed.
End contigs_sorted.

Lemma split_regions_into_contigs_partition_witness :
  (∀ l : list string, remove_dups l ≡ₚ remove_dups l) ∧
  concat (regions <$> split_regions_into_contigs remove_dups
                        [region_A; blastp_region; region_D])
  ≡ₚ [region_A; blastp_region; region_D].
Proof.
  assert (∀ l : list string, remove_dups l ≡ₚ remove_dups l) as Hperm by reflexivity.
  split; [exact Hperm|].
  apply (split_regions_into_contigs_partition remove_dups Hperm).
Defined.

Lemma sort_contigs_order_free_witness :
  (∀ l : list string, remove_dups l ≡ₚ remove_dups l) ∧
  (∀ l : list string, reverse (remove_dups l) ≡ₚ remove_dups l) ∧
  sort_contigs (split_regions_into_contigs remove_dups [region_A; region_D]) =
  sort_contigs (split_regions_into_contigs (λ l, reverse (remove_dups l))
                  [region_A; region_D]).
Proof.
  assert (∀ l : list string, remove_dups l ≡ₚ remove_dups l) as Hperm by reflexivity.
  assert (∀ l : list string, reverse (remove_dups l) ≡ₚ remove_dups l) as Hperm'
    by (intros l; apply reverse_Permutation).
  split; [exact Hperm|]. split; [exact Hperm'|].
  apply (sort_contigs_order_free remove_dups (λ l, reverse (remove_dups l)) Hperm Hperm').
Defined.

(** ** Fields, query identifiers and the end of the report *)

Lemma list_ascii_of_string_append s t :
  String.list_ascii_of_string (s +:+ t) = String.list_ascii_of_string s ++ String.list_ascii_of_string t.
Proof.
  induction s as [|a s IH]; [reflexivity|]. rewrite append_cons. simpl. by rewrite IH.
Qed.

Lemma is_separator_plain hyphen prev c :
  is_separator hyphen prev c = false → is_separator false None c = false.
Proof.
  unfold is_separator.
  destruct (is_space c), (Ascii.eqb c "["), (Ascii.eqb c "]"), (Ascii.eqb c ":"),
    (Ascii.eqb c "("), (Ascii.eqb c ")"); simpl; try done;
    rewrite ?orb_true_r; done.
Qed.

Lemma fields_from_plain hyphen s : ∀ prev tok f,
  (∀ c, c ∈ String.list_ascii_of_string tok → is_separator false None c = false) →
  f ∈ fields_from hyphen prev tok s →
  f ≠ "" ∧ ∀ c, c ∈ String.list_ascii_of_string f → is_separator false None c = false.
Proof.
  assert (∀ tok f, (∀ c, c ∈ String.list_ascii_of_string tok → is_separator false None c = false) →
                   f ∈ end_field tok →
                   f ≠ "" ∧ ∀ c, c ∈ String.list_ascii_of_string f →
                                 is_separator false None c = false) as Hend.
  { intros tok f Htok. unfold end_field.
    destruct (String.eqb tok "") eqn:Hempty; [by intros ?%elem_of_nil|].
    intros ->%list_elem_of_singleton. split; [|done].
    intros ->. by rewrite String.eqb_refl in Hempty. }
  induction s as [|c s IH]; intros prev tok f Htok; simpl; [by apply Hend|].
  destruct (is_separator hyphen prev c) eqn:Hsep.
  - intros [Hf|Hf]%elem_of_app; [by eapply Hend|].
    eapply IH; [|exact Hf]. by intros c' ?%elem_of_nil.
  - apply IH. intros c'. rewrite list_ascii_of_string_append, elem_of_app.
    intros [Hc|Hc]; [by apply Htok|].
    apply list_elem_of_singleton in Hc as ->. by eapply is_separator_plain.
Qed.

(** X17.  No field of a line is empty, and no field holds white space, a bracket,
    a colon or a parenthesis. *)
Theorem FieldsInLine_plain hyphen line f :
  f ∈ FieldsInLine hyphen line →
  f ≠ "" ∧ ∀ c, c ∈ String.list_ascii_of_string f → is_separator false None c = false.
Proof. apply fields_from_plain. by intros c ?%elem_of_nil. Qed.

Lemma FieldsInLine_plain_witness :
  "c1" ∈ FieldsInLine true "# Query: Q1 c1 [115:223](+)" ∧
  "c1" ≠ "" ∧
  ∀ c, c ∈ String.list_ascii_of_string "c1" → is_separator false None c = false.
Proof.
  assert ("c1" ∈ FieldsInLine true "# Query: Q1 c1 [115:223](+)") as Hin
    by (vm_compute; do 4 constructor).
  split; [exact Hin|].
  exact (FieldsInLine_plain true "# Query: Q1 c1 [115:223](+)" "c1" Hin).
Defined.

(** X18.  [collect_query_ids] returns one identifier for each header line, in the
    order of the lines: the third field of the line.  It raises exactly
    when a header line has fewer than three fields, and then
    [IndexError]. *)
Theorem collect_query_ids_headers lines :
  (∀ loq, collect_query_ids lines = Ok loq ↔
          Forall2 (λ line query, FieldsInLine false line !! 2 = Some query)
                  (filter (λ line, re_match "# Query:" line) lines) loq) ∧
  (∀ e, collect_query_ids lines = Raise e → e = IndexError).
Proof.
  induction lines as [|line rest [IHok IHerr]]; simpl.
  - split; [|done]. intros loq. split.
    + intros [= <-]. constructor.
    + intros ->%Forall2_nil_inv_l. done.
  - destruct (re_match "# Query:" line) eqn:Hheader; simpl.
    + rewrite filter_cons_True by (by rewrite Hheader). unfold item.
      destruct (FieldsInLine false line !! 2) as [q|] eqn:Hq; simpl.
      * destruct (collect_query_ids rest) as [loq'|e'] eqn:Hrest; simpl.
        -- split; [|done]. intros loq. split.
           ++ intros [= <-]. constructor; [done|]. by apply IHok.
           ++ intros (q' & loq'' & Hq' & Hrest' & ->)%Forall2_cons_inv_l.
              apply IHok in Hrest'. congruence.
        -- split; [|intros e [= <-]; by apply IHerr].
           intros loq. split; [done|].
           intros (q' & loq'' & Hq' & Hrest' & ->)%Forall2_cons_inv_l.
           by apply IHok in Hrest'.
      * split; [|by intros e [= <-]]. intros loq. split; [done|].
        intros (q' & loq'' & Hq' & _)%Forall2_cons_inv_l. congruence.
    + rewrite filter_cons_False by (rewrite Hheader; intros []). by split.
Qed.

Lemma collect_query_ids_headers_witness :
  collect_query_ids report_mismatch = Ok ["Q1"; "Q2"] ∧
  Forall2 (λ line query, FieldsInLine false line !! 2 = Some query)
          (filter (λ line, re_match "# Query:" line) report_mismatch) ["Q1"; "Q2"].
Proof.
  assert (collect_query_ids report_mismatch = Ok ["Q1"; "Q2"]) as Hrun by (by vm_compute).
  split; [exact Hrun|].
  exact (proj1 (proj1 (collect_query_ids_headers report_mismatch) ["Q1"; "Q2"]) Hrun).
Defined.

Lemma dict_del_present k d info : dict_get k d = Some info → ∃ d', dict_del k d = Ok d'.
Proof.
  unfold dict_get. induction d as [|[k' v'] d IH]; simpl; [done|].
  destruct (String.eqb k' k); [by eauto|].
  intros Hget. destruct (IH Hget) as [d' ->]. simpl. eauto.
Qed.

Lemma zero_hits_not_header q line :
  re_match "# 0 hits found" line = true →
  re_match ("# Query: " +:+ q) line = false ∧ re_match "#" line = true.
Proof.
  unfold re_match.
  destruct line as [|c1 [|c2 [|c3 line]]]; try done.
  - intros [_ H]%prefix_cons. done.
  - intros [_ [_ H]%prefix_cons]%prefix_cons. done.
  - intros [<- [<- [<- _]%prefix_cons]%prefix_cons]%prefix_cons.
    split; [|done]. apply not_true_is_false.
    change ("# Query: " +:+ q) with (String "#" (String " " (String "Q" ("uery: " +:+ q)))).
    intros [_ [_ [[=] _]%prefix_cons]%prefix_cons]%prefix_cons.
Qed.

(** X19.  Where the current query is the last one and has its header recorded, a
    line [# 0 hits found] that is followed by another line raises
    [IndexError], whatever the other line holds: the query index has passed
    the last query when that line looks up [queries[queryIndex]].  (A report
    ends with a line of its own after the block of the last query.) *)
Theorem parse_lines_after_last_query queries lines line_number line next rest st q info :
  queryIndex st + 1 = length queries →
  item queries (queryIndex st) = Ok q →
  dict_get q (QueryDict st) = Some info →
  re_match "# 0 hits found" line = true →
  parse_lines queries lines line_number (line :: next :: rest) st = Raise IndexError.
Proof.
  intros Hlast Hq Hget Hzero.
  destruct (zero_hits_not_header q line Hzero) as [Hheader Hcomment].
  destruct (dict_del_present _ _ _ Hget) as [d' Hdel].
  assert (item queries (queryIndex st + 1) = Raise IndexError) as Hout.
  { unfold item. by rewrite lookup_ge_None_2 by lia. }
  assert (parse_line queries lines line_number line st =
          Ok (mkParseState (queryIndex st + 1) d' (next_obj st))) as Hline.
  { unfold parse_line, parse_branches. rewrite Hq. simpl.
    rewrite Hheader, Hzero, Hdel. simpl.
    unfold end_of_hits. simpl. by rewrite Hcomment, Hout. }
  assert (parse_line queries lines (S line_number) next
            (mkParseState (queryIndex st + 1) d' (next_obj st)) = Raise IndexError) as Hnext.
  { unfold parse_line, parse_branches. simpl. by rewrite Hout. }
  cbn [parse_lines]. rewrite Hline. simpl. by rewrite Hnext.
Qed.

Lemma parse_lines_after_last_query_witness :
  let lines := readlines ["# Query: Q1 c1 [115:223](+)"; "# Database: db";
                          "# 0 hits found"; "# BLAST processed 1 queries"] in
  parse_lines ["Q1"] lines 2 (drop 2 lines)
              (mkParseState 0 [("Q1", mkQueryInfo "c1" "Q1" (PyInt 115 1) 223 "+" None)] 2)
  = Raise IndexError ∧
  parse_blast lines "BlastP" = Raise IndexError.
Proof.
  intros lines. split; [|by vm_compute].
  apply (parse_lines_after_last_query ["Q1"] lines 2 _ _ _ _ "Q1"
           (mkQueryInfo "c1" "Q1" (PyInt 115 1) 223 "+" None)); reflexivity.
Defined.

(** ** The regions that the parser returns *)

Lemma dict_get_elem_key k d info : dict_get k d = Some info → (k, info) ∈ d.
Proof.
  unfold dict_get. destruct (List.find _ d) as [[k' v]|] eqn:Hfind; [|done].
  intros [= <-]. apply find_some in Hfind as [Hin Hk]. simpl in Hk.
  apply String.eqb_eq in Hk as ->. by apply list_elem_of_In.
Qed.

Lemma dict_set_NoDup k v d : NoDup d.*1 → NoDup (dict_set k v d).*1.
Proof.
  induction d as [|[k0 v0] d IH]; simpl; [intros _; by apply NoDup_singleton|].
  rewrite NoDup_cons. intros [Hk0 Hnd].
  destruct (String.eqb k0 k) eqn:Hk; csimpl.
  - apply String.eqb_eq in Hk as ->. by apply NoDup_cons.
  - apply String.eqb_neq in Hk. apply NoDup_cons. split; [|by apply IH].
    intros ([k' v'] & Heq & Hin)%list_elem_of_fmap. simpl in Heq. subst k'.
    apply dict_set_elem in Hin as [[= ? ?]|Hin]; [done|].
    apply Hk0, list_elem_of_fmap. by exists (k0, v').
Qed.

Lemma dict_del_sublist k d d' : dict_del k d = Ok d' → d' `sublist_of` d.
Proof.
  revert d'. induction d as [|[k0 v0] d IH]; simpl; intros d'; [done|].
  destruct (String.eqb k0 k).
  - intros [= <-]. by constructor.
  - intros (d'' & Hdel & [= <-])%bind_Ok. constructor. by apply IH.
Qed.

Lemma dict_set_wf queries k v d :
  dict_wf queries d →
  qi_query v = k → k ∈ queries → (∀ l, qi_hits v = Some l → l ≠ []) →
  dict_wf queries (dict_set k v d).
Proof.
  intros [Hnd Hd] Hq Hk Hh. split; [by apply dict_set_NoDup|].
  intros k' info [[= -> ->]|Hin]%dict_set_elem; [done|by apply Hd].
Qed.

Section parse_regions.
Variable queries : list string.
Variable lines : list string.

Lemma parse_branches_wf line st st' :
  dict_wf queries (QueryDict st) →
  parse_branches queries line st = Ok st' →
  dict_wf queries (QueryDict st').
Proof.
  intros Hd. unfold parse_branches.
  intros (q & Hq & H)%bind_Ok.
  assert (q ∈ queries) as Hin.
  { unfold item in Hq. destruct (queries !! queryIndex st) eqn:Hlook; [|done].
    injection Hq as ->. by eapply list_elem_of_lookup_2. }
  destruct (re_match ("# Query: " +:+ q) line).
  { apply bind_Ok in H as (c & _ & H). apply bind_Ok in H as (s & _ & H).
    apply bind_Ok in H as (e & _ & H). apply bind_Ok in H as (sd & _ & H).
    injection H as <-. simpl. by apply dict_set_wf. }
  destruct (re_match "# 0 hits found" line).
  { apply bind_Ok in H as (d & Hdel & H). injection H as <-. simpl.
    destruct Hd as [Hnd Hd]. split.
    - apply dict_del_sublist in Hdel.
      eapply sublist_NoDup; [exact Hnd|by apply fmap_sublist].
    - intros k info Hk. apply Hd. by eapply dict_del_elem. }
  destruct (re_match q line); [|by injection H as <-].
  apply bind_Ok in H as (info & Hget & H). apply bind_Ok in H as (a & _ & H).
  apply bind_Ok in H as (sl & _ & H). apply bind_Ok in H as (ss & _ & H).
  apply bind_Ok in H as (se & _ & H). apply bind_Ok in H as (ev & _ & H).
  injection H as <-. simpl.
  destruct (dict_get q (QueryDict st)) as [info'|] eqn:Hinfo; [|done].
  injection Hget as ->. apply dict_get_elem_key in Hinfo.
  apply dict_set_wf; simpl; [done| |done|].
  - destruct Hd as [_ Hd]. by destruct (Hd _ _ Hinfo) as (Hquery & _).
  - intros l [= <-] [_ [=]]%app_eq_nil.
Qed.
End parse_regions.

Lemma parse_lines_wf queries lines todo : ∀ line_number st st',
  dict_wf queries (QueryDict st) →
  parse_lines queries lines line_number todo st = Ok st' →
  dict_wf queries (QueryDict st').
Proof.
  induction todo as [|line todo IH]; simpl; intros n st st' Hd.
  - by intros [= <-].
  - intros (st1 & Hline & Hrest)%bind_Ok.
    apply (IH (S n) st1); [|done].
    unfold parse_line in Hline. apply bind_Ok in Hline as (st0 & Hbr & [= <-]).
    apply parse_branches_wf in Hbr; [|done].
    unfold end_of_hits. repeat case_match; done.
Qed.

Lemma get_intergenic_query_range_Ok lobh start_position :
  lobh ≠ [] → ∃ range, get_intergenic_query_range lobh start_position = Ok range.
Proof. destruct lobh as [|h l]; [done|]. intros _. unfold get_intergenic_query_range. simpl. eauto. Qed.

(** The last loop of [parse_blast], for the three kinds of format. *)
Lemma region_list_formats d : ∀ next,
  (∀ k info l, (k, info) ∈ d → qi_hits info = Some l → l ≠ []) →
  (∀ blast_format, blast_format ≠ "BlastP" → blast_format ≠ "BlastX" →
                   region_list blast_format d next = Ok []) ∧
  (∀ regions,
     region_list "BlastP" d next = Ok regions →
     Forall2 (λ kv r, qi_hits kv.2 = Some (hits r) ∧ query r = qi_query kv.2) d regions ∧
     ∃ regions', region_list "BlastX" d next = Ok regions' ∧
                 Forall2 recomputed regions regions') ∧
  (∀ regions',
     region_list "BlastX" d next = Ok regions' →
     Forall2 (λ kv r, qi_hits kv.2 = Some (hits r) ∧ query r = qi_query kv.2) d regions').
Proof.
  induction d as [|[key info] d IH]; intros next Hne.
  - split; [done|]. split.
    + intros regions [= <-]. split; [constructor|]. exists []. split; [done|constructor].
    + intros regions [= <-]. constructor.
  - assert (∀ k i l, (k, i) ∈ d → qi_hits i = Some l → l ≠ []) as Hne'.
    { intros k i l Hin. apply (Hne k). by constructor. }
    destruct (IH (Pos.succ next) Hne') as (IHother & IHP & IHX).
    split; [|split].
    + intros blast_format HP HX. simpl.
      apply String.eqb_neq in HP, HX. rewrite HP, HX. simpl.
      by rewrite (IHother blast_format) by (by apply String.eqb_neq).
    + intros regions. simpl.
      destruct (qi_hits info) as [l|] eqn:Hl; simpl; [|done].
      destruct (region_list "BlastP" d (Pos.succ next)) as [rest|e] eqn:Hrest; simpl; [|done].
      intros [= <-]. destruct (IHP rest eq_refl) as (Hall & rest' & Hrest' & Hrec).
      split; [constructor; [simpl; split; [exact Hl|reflexivity]|done]|].
      destruct (get_intergenic_query_range_Ok l (int_val (qi_start info)))
        as [[lo hi] Hrange]; [by eapply (Hne key), Hl; constructor|].
      rewrite Hrange. simpl. rewrite Hrest'. simpl.
      eexists. split; [done|]. constructor; [|done].
      unfold recomputed, start_val. simpl. by rewrite Hrange.
    + intros regions'. simpl.
      destruct (qi_hits info) as [l|] eqn:Hl; simpl; [|done].
      destruct (get_intergenic_query_range l (int_val (qi_start info)))
        as [[lo hi]|e]; simpl; [|done].
      destruct (region_list "BlastX" d (Pos.succ next)) as [rest|e] eqn:Hrest; simpl; [|done].
      intros [= <-]. constructor; [simpl; split; [exact Hl|reflexivity]|]. by apply IHX.
Qed.

Lemma parse_blast_inv lines blast_format regions :
  parse_blast lines blast_format = Ok regions →
  ∃ queries st,
    collect_query_ids lines = Ok queries ∧
    parse_lines queries lines 0 lines (mkParseState 0 [] 1) = Ok st ∧
    dict_wf queries (QueryDict st) ∧
    region_list blast_format (QueryDict st) (next_obj st) = Ok regions.
Proof.
  unfold parse_blast. intros (queries & Hq & H)%bind_Ok.
  apply bind_Ok in H as (st & Hlines & Hregions).
  exists queries, st. split; [done|]. split; [done|]. split; [|done].
  eapply parse_lines_wf; [|exact Hlines]. simpl. split; [constructor|].
  by intros k info ?%elem_of_nil.
Qed.

(** X20.  [parse_blast] returns at most one region for a query identifier, for
    identifiers that [collect_query_ids] found in the report, and every
    region that it returns has a hit.  A format that is neither [BlastP] nor
    [BlastX] gives no region. *)
Theorem parse_blast_regions lines blast_format regions :
  parse_blast lines blast_format = Ok regions →
  NoDup (query <$> regions) ∧
  (∀ r, r ∈ regions →
        hits r ≠ [] ∧
        ∃ queries, collect_query_ids lines = Ok queries ∧ query r ∈ queries) ∧
  (blast_format ≠ "BlastP" → blast_format ≠ "BlastX" → regions = []).
Proof.
  intros (queries & st & Hq & _ & [Hnd Hd] & Hregions)%parse_blast_inv.
  assert (∀ k info l, (k, info) ∈ QueryDict st → qi_hits info = Some l → l ≠ []) as Hne.
  { intros k info l Hin. by apply (Hd k info Hin). }
  destruct (region_list_formats (QueryDict st) (next_obj st) Hne) as (Hother & HP & HX).
  assert (blast_format = "BlastP" ∨ blast_format = "BlastX" →
          Forall2 (λ kv r, qi_hits kv.2 = Some (hits r) ∧ query r = qi_query kv.2)
                  (QueryDict st) regions) as Hshape.
  { intros [-> | ->]; [by apply HP|by apply HX]. }
  destruct (decide (blast_format = "BlastP")) as [HfP|HfP];
    [|destruct (decide (blast_format = "BlastX")) as [HfX|HfX]].
  3:{ rewrite (Hother blast_format HfP HfX) in Hregions. injection Hregions as <-.
      split; [constructor|]. split; [by intros r ?%elem_of_nil|done]. }
  all: assert (Forall2 (λ kv r, qi_hits kv.2 = Some (hits r) ∧ query r = qi_query kv.2)
                 (QueryDict st) regions) as Hall by (apply Hshape; tauto).
  all: split; [|split; [|by subst]].
  all: try (intros r Hr; apply list_elem_of_lookup in Hr as [n Hn];
            destruct (Forall2_lookup_r _ _ _ _ _ Hall Hn) as ([k info] & Hk & Hh & Hquery);
            apply list_elem_of_lookup_2 in Hk; simpl in *;
            destruct (Hd k info Hk) as (Hkey & Hin & Hhits);
            split; [by apply Hhits|]; exists queries; split; [done|]; congruence).
  all: assert (query <$> regions = (QueryDict st).*1) as ->; [|done].
  all: clear -Hall Hd; induction Hall as [|[k info] r d rs [_ Hquery] Hall IH]; [done|].
  all: csimpl; f_equal;
    [simpl in Hquery; rewrite Hquery; apply (Hd k info); by constructor|].
  all: apply IH; intros k' info' Hin; apply Hd; by constructor.
Qed.

Lemma parse_blast_regions_witness :
  parse_blast report_blastp "BlastP" = Ok [blastp_region] ∧
  NoDup (query <$> [blastp_region]) ∧ hits blastp_region ≠ [].
Proof.
  assert (parse_blast report_blastp "BlastP" = Ok [blastp_region]) as Hparse
    by (vm_compute; reflexivity).
  split; [exact Hparse|].
  destruct (parse_blast_regions _ _ _ Hparse) as (Hnd & Hall & _).
  split; [exact Hnd|]. apply Hall. constructor.
Defined.

(** X21.  The same lines give, read as a translated report, the regions that they
    give as a protein report, one for one and in the same order, with the
    same hits; only the coordinates are recomputed from the hits. *)
Theorem parse_blast_translated lines regions :
  parse_blast lines "BlastP" = Ok regions →
  ∃ regions', parse_blast lines "BlastX" = Ok regions' ∧ Forall2 recomputed regions regions'.
Proof.
  intros (queries & st & Hq & Hlines & [Hnd Hd] & Hregions)%parse_blast_inv.
  assert (∀ k info l, (k, info) ∈ QueryDict st → qi_hits info = Some l → l ≠ []) as Hne.
  { intros k info l Hin. by apply (Hd k info Hin). }
  destruct (region_list_formats (QueryDict st) (next_obj st) Hne) as (_ & HP & _).
  destruct (HP regions Hregions) as (_ & regions' & Hregions' & Hrec).
  exists regions'. split; [|done].
  unfold parse_blast. rewrite Hq. simpl. rewrite Hlines. simpl. done.
Qed.

Lemma parse_blast_translated_witness :
  parse_blast report_blastp "BlastP" = Ok [blastp_region] ∧
  ∃ regions', parse_blast report_blastp "BlastX" = Ok regions' ∧
              Forall2 recomputed [blastp_region] regions'.
Proof.
  assert (parse_blast report_blastp "BlastP" = Ok [blastp_region]) as Hparse
    by (vm_compute; reflexivity).
  split; [exact Hparse|].
  exact (parse_blast_translated _ _ Hparse).
Defined.

(** ** Errors of the last loop of [parse_blast] *)

Lemma region_list_raises blast_format d : ∀ next e,
  (∀ k info l, (k, info) ∈ d → qi_hits info = Some l → l ≠ []) →
  region_list blast_format d next = Raise e →
  e = KeyError ∧ ∃ k info, (k, info) ∈ d ∧ qi_hits info = None.
Proof.
  induction d as [|[key info] d IH]; intros next e Hne; simpl; [done|].
  assert (∀ k i l, (k, i) ∈ d → qi_hits i = Some l → l ≠ []) as Hne'.
  { intros k i l Hin. apply (Hne k). by constructor. }
  assert (region_list blast_format d (Pos.succ next) = Raise e →
          e = KeyError ∧ ∃ k i, (k, i) ∈ (key, info) :: d ∧ qi_hits i = None) as Hrest.
  { intros (He & k & i & Hin & Hi)%IH; [|done].
    split; [done|]. exists k, i. split; [by constructor|done]. }
  destruct (qi_hits info) as [l|] eqn:Hl.
  - destruct (get_intergenic_query_range_Ok l (int_val (qi_start info)))
      as [[lo hi] Hrange]; [by eapply (Hne key), Hl; constructor|].
    destruct (String.eqb blast_format "BlastP"), (String.eqb blast_format "BlastX");
      simpl; rewrite ?Hrange; simpl;
      destruct (region_list blast_format d (Pos.succ next)) as [rest|e'];
      simpl; try done; intros [= <-]; by apply Hrest.
  - assert (e = KeyError → e = KeyError ∧
              ∃ k i, (k, i) ∈ (key, info) :: d ∧ qi_hits i = None) as Hhere.
    { intros ->. split; [done|]. exists key, info. split; [by constructor|done]. }
    destruct (String.eqb blast_format "BlastP"), (String.eqb blast_format "BlastX");
      simpl; try (intros [= <-]; by apply Hhere).
    destruct (region_list blast_format d (Pos.succ next)) as [rest|e'];
      simpl; try done; intros [= <-]; by apply Hrest.
Qed.

(** X22.  When the lines of a report of format [BlastP] or [BlastX] were read
    without error, [parse_blast] fails exactly when a query is left in the
    dictionary that has a header line and no hit, and the error is
    [KeyError]: the smallest and the largest position are never asked of an
    empty list of hits. *)
Theorem parse_blast_query_without_hits lines blast_format queries st :
  collect_query_ids lines = Ok queries →
  parse_lines queries lines 0 lines (mkParseState 0 [] 1) = Ok st →
  blast_format = "BlastP" ∨ blast_format = "BlastX" →
  (parse_blast lines blast_format = Raise KeyError ↔
   ∃ k info, (k, info) ∈ QueryDict st ∧ qi_hits info = None) ∧
  (∀ e, parse_blast lines blast_format = Raise e → e = KeyError).
Proof.
  intros Hq Hlines Hformat.
  assert (dict_wf queries (QueryDict st)) as [_ Hd].
  { eapply parse_lines_wf; [|exact Hlines]. simpl. split; [constructor|].
    by intros k info ?%elem_of_nil. }
  assert (∀ k info l, (k, info) ∈ QueryDict st → qi_hits info = Some l → l ≠ []) as Hne.
  { intros k info l Hin. by apply (Hd k info Hin). }
  assert (parse_blast lines blast_format =
          region_list blast_format (QueryDict st) (next_obj st)) as ->.
  { unfold parse_blast. rewrite Hq. simpl. by rewrite Hlines. }
  split; [split|].
  - by intros (_ & H)%region_list_raises.
  - intros (k & info & Hin & Hnone).
    destruct (region_list blast_format (QueryDict st) (next_obj st)) as [regions|e] eqn:Hrun.
    + destruct (region_list_formats (QueryDict st) (next_obj st) Hne) as (_ & HP & HX).
      assert (Forall2 (λ kv r, qi_hits kv.2 = Some (hits r) ∧ query r = qi_query kv.2)
                (QueryDict st) regions) as Hall.
      { destruct Hformat as [-> | ->]; [by apply HP|by apply HX]. }
      apply list_elem_of_lookup in Hin as [n Hn].
      destruct (Forall2_lookup_l _ _ _ _ _ Hall Hn) as (r & _ & Hsome & _).
      simpl in Hsome. congruence.
    + by apply region_list_raises in Hrun as [-> _].
  - intros e He. by apply region_list_raises in He as [-> _].
Qed.

Lemma parse_blast_query_without_hits_witness :
  parse_blast report_truncated "BlastP" = Raise KeyError ∧
  parse_blast report_truncated "BlastX" = Raise KeyError.
Proof.
  assert (∃ st, parse_lines ["Q1"] report_truncated 0 report_truncated
                            (mkParseState 0 [] 1) = Ok st ∧
                ∃ k info, (k, info) ∈ QueryDict st ∧ qi_hits info = None)
    as (st & Hlines & Hentry).
  { eexists. split; [vm_compute; reflexivity|].
    eexists _, _. split; [apply list_elem_of_here|reflexivity]. }
  assert (collect_query_ids report_truncated = Ok ["Q1"]) as Hq by (vm_compute; reflexivity).
  split.
  - apply (parse_blast_query_without_hits _ "BlastP" _ _ Hq Hlines); [by left|exact Hentry].
  - apply (parse_blast_query_without_hits _ "BlastX" _ _ Hq Hlines); [by right|exact Hentry].
Defined.

(** ** The range of an intergenic region *)

Lemma foldl_min_spec (l : list Z) : ∀ x,
  (foldl Z.min x l = x ∨ foldl Z.min x l ∈ l) ∧
  (foldl Z.min x l ≤ x)%Z ∧ (∀ y, y ∈ l → foldl Z.min x l ≤ y)%Z.
Proof.
  induction l as [|a l IH]; intros x; simpl.
  - split; [by left|]. split; [lia|]. by intros y ?%elem_of_nil.
  - destruct (IH (Z.min x a)) as (Hin & Hle & Hall). split; [|split].
    + destruct Hin as [->|Hin]; [|right; by constructor].
      destruct (Z.min_spec x a) as [[_ ->]|[_ ->]]; [by left|right; constructor].
    + lia.
    + intros y [->|Hy]%elem_of_cons; [lia|by apply Hall].
Qed.

Lemma foldl_max_spec (l : list Z) : ∀ x,
  (foldl Z.max x l = x ∨ foldl Z.max x l ∈ l) ∧
  (x ≤ foldl Z.max x l)%Z ∧ (∀ y, y ∈ l → y ≤ foldl Z.max x l)%Z.
Proof.
  induction l as [|a l IH]; intros x; simpl.
  - split; [by left|]. split; [lia|]. by intros y ?%elem_of_nil.
  - destruct (IH (Z.max x a)) as (Hin & Hle & Hall). split; [|split].
    + destruct Hin as [->|Hin]; [|right; by constructor].
      destruct (Z.max_spec x a) as [[_ ->]|[_ ->]]; [right; constructor|by left].
    + lia.
    + intros y [->|Hy]%elem_of_cons; [lia|by apply Hall].
Qed.

(** X23.  [get_intergenic_query_range] fails exactly on an empty list of hits,
    with [ValueError].  Otherwise the range that it returns starts where
    the first of the hits starts and ends where the last of them ends, both
    moved by [start_position + 1]: every hit lies within the range, and the
    two ends are the ends of hits. *)
Theorem get_intergenic_query_range_covers lobh start_position :
  (lobh = [] → get_intergenic_query_range lobh start_position = Raise ValueError) ∧
  (lobh ≠ [] →
   ∃ regionStart regionEnd,
     get_intergenic_query_range lobh start_position = Ok (regionStart, regionEnd) ∧
     (∃ h, h ∈ lobh ∧ regionStart = start_position + s_start h + 1)%Z ∧
     (∃ h, h ∈ lobh ∧ regionEnd = start_position + s_end h + 1)%Z ∧
     (∀ h, h ∈ lobh →
           regionStart ≤ start_position + s_start h + 1 ∧
           start_position + s_end h + 1 ≤ regionEnd)%Z).
Proof.
  split; [by intros ->|].
  destruct lobh as [|h0 l]; [done|]. intros _.
  destruct (foldl_min_spec (s_start <$> l) (s_start h0)) as (Hmin & Hmin0 & Hmins).
  destruct (foldl_max_spec (s_end <$> l) (s_end h0)) as (Hmax & Hmax0 & Hmaxs).
  exists (start_position + foldl Z.min (s_start h0) (s_start <$> l) + 1)%Z,
         (start_position + foldl Z.max (s_end h0) (s_end <$> l) + 1)%Z.
  split; [reflexivity|]. split; [|split].
  - destruct Hmin as [Hmin|(h & Hmin & Hh)%list_elem_of_fmap]; rewrite Hmin.
    + exists h0. split; [by constructor|done].
    + exists h. split; [by constructor|done].
  - destruct Hmax as [Hmax|(h & Hmax & Hh)%list_elem_of_fmap]; rewrite Hmax.
    + exists h0. split; [by constructor|done].
    + exists h. split; [by constructor|done].
  - intros h [->|Hh]%elem_of_cons; [lia|].
    assert (s_start h ∈ s_start <$> l) as Hs by (apply list_elem_of_fmap; eauto).
    assert (s_end h ∈ s_end <$> l) as He by (apply list_elem_of_fmap; eauto).
    apply Hmins in Hs. apply Hmaxs in He. lia.
Qed.

Lemma get_intergenic_query_range_covers_witness :
  ∃ regionStart regionEnd,
    get_intergenic_query_range [blastp_hit] 115 = Ok (regionStart, regionEnd) ∧
    (∀ h, h ∈ [blastp_hit] →
          regionStart ≤ 115 + s_start h + 1 ∧ 115 + s_end h + 1 ≤ regionEnd)%Z.
Proof.
  destruct (get_intergenic_query_range_covers [blastp_hit] 115) as [_ H].
  destruct H as (regionStart & regionEnd & Hrun & _ & _ & Hall); [done|].
  exists regionStart, regionEnd. split; [exact Hrun|exact Hall].
Defined.

(** ** Witnesses of two lemmas on the first line and on shared start objects *)

Lemma end_of_hits_first_line_witness :
  end_of_hits ["Q1"] report_no_trailer 0 ("# BLASTP 2.6.0+" +:+ newline)
              (mkParseState 0 [] 1) = mkParseState 1 [] 1.
Proof.
  apply (end_of_hits_first_line ["Q1"] report_no_trailer ("# BLASTP 2.6.0+" +:+ newline)
           (mkParseState 0 [] 1) "Q1"
           ("Q1 acc1 47.929 169 81 5 61 225 25 190 192 1.33e-40 140" +:+ newline));
    vm_compute; reflexivity.
Defined.

Lemma regions_apart_starts_identified : starts_identified regions_apart.
Proof.
  intros r r' Hr Hr' Hstart. unfold regions_apart in Hr, Hr'.
  repeat (apply elem_of_cons in Hr as [->|Hr]); [| | |by apply elem_of_nil in Hr];
    repeat (apply elem_of_cons in Hr' as [->|Hr']);
    try (by apply elem_of_nil in Hr'); try (vm_compute; reflexivity);
    vm_compute in Hstart; discriminate Hstart.
Defined.

Lemma check_adjacent_regions_distinct_starts_witness :
  ∃ individual merged sd',
    check_adjacent_regions remove_dups regions_apart shared_hits_default StatisticsDict =
      Some (Ok (individual, merged, sd')) ∧
    NoDup (start_val <$> merged) ∧ NoDup (start_val <$> individual).
Proof.
  assert (∃ individual merged sd',
            check_adjacent_regions remove_dups regions_apart
                                   shared_hits_default StatisticsDict =
              Some (Ok (individual, merged, sd')))
    as (individual & merged & sd' & Hrun)
    by (eexists _, _, _; vm_compute; reflexivity).
  exists individual, merged, sd'. split; [exact Hrun|].
  exact (check_adjacent_regions_distinct_starts remove_dups shared_hits_default _ _ _ _ _
           regions_apart_starts_identified Hrun).
Defined.
